(** * Verification model of discord-docker-status

    Shallow embedding of [src/src/main.rs] (the Poller [container_thread],
    the Reconciler [message_update], the shared [Store]) and of the log
    formatting code shared by [main.rs] (lines 214-268) and
    [src/src/discord.rs] ([embed_container]).

    Text conventions: a Rust [String] is modelled by its UTF-8 bytes.
    Container fields (ids, names, ...) are Stdlib [string]s (8-bit chars,
    i.e. the bytes of the Rust string); raw log payloads and everything the
    formatter builds are [list Z] (one byte per element, 0..255). *)

From stdpp Require Import base gmap strings list fin_maps pretty.
From Stdlib Require Import ZArith Ascii String.

Open Scope Z_scope.

(* ------------------------------------------------------------------ *)
(** ** Bytes and UTF-8 *)

Definition bytes_of_string (s : string) : list Z :=
  map (fun a => Z.of_N (N_of_ascii a)) (list_ascii_of_string s).

Definition string_of_bytes (bs : list Z) : string :=
  string_of_list_ascii (map (fun b => ascii_of_N (Z.to_N b)) bs).

(** A UTF-8 continuation byte ([0b10xx_xxxx]). *)
Definition is_cont (b : Z) : bool := (0x80 <=? b) && (b <=? 0xBF).

(** [str::is_char_boundary]: index 0, the end, or a byte that does not
    continue a multi-byte sequence. Past the end is not a boundary. *)
Definition is_char_boundary (s : list Z) (i : nat) : bool :=
  match i with
  | O => true
  | _ => match s !! i with
         | Some b => negb (is_cont b)
         | None => Nat.eqb i (List.length s)
         end
  end.

(** [s.chars().count()] on a valid UTF-8 string: the bytes that are not
    continuation bytes. *)
Definition char_count (s : list Z) : nat :=
  List.length (filter (fun b => negb (is_cont b)) s).

(** [core::str::utf8_char_width]. *)
Definition utf8_char_width (b : Z) : nat :=
  if b <? 0x80 then 1
  else if b <? 0xC2 then 0
  else if b <? 0xE0 then 2
  else if b <? 0xF0 then 3
  else if b <? 0xF5 then 4
  else 0.

(** The second byte of a 3- and 4-byte sequence, as checked by
    [core::str::validations::run_utf8_validation]. *)
Definition second_ok3 (first c : Z) : bool :=
  if first =? 0xE0 then (0xA0 <=? c) && (c <=? 0xBF)
  else if first =? 0xED then (0x80 <=? c) && (c <=? 0x9F)
  else is_cont c.

Definition second_ok4 (first c : Z) : bool :=
  if first =? 0xF0 then (0x90 <=? c) && (c <=? 0xBF)
  else if first =? 0xF4 then (0x80 <=? c) && (c <=? 0x8F)
  else is_cont c.

(** [core::str::Utf8Error]. *)
Record Utf8Error := mkUtf8Error {
  valid_up_to : nat;
  error_len : option nat
}.

(** [run_utf8_validation]: [None] when the bytes are valid UTF-8. [idx]
    is the index of the first byte of [bs] in the whole input. *)
Fixpoint run_utf8_validation (bs : list Z) (idx : nat) : option Utf8Error :=
  match bs with
  | [] => None
  | b :: rest =>
      match utf8_char_width b with
      | 1%nat => run_utf8_validation rest (S idx)
      | 2%nat =>
          match rest with
          | [] => Some (mkUtf8Error idx None)
          | c :: rest' =>
              if is_cont c then run_utf8_validation rest' (idx + 2)%nat
              else Some (mkUtf8Error idx (Some 1%nat))
          end
      | 3%nat =>
          match rest with
          | [] => Some (mkUtf8Error idx None)
          | c :: rest' =>
              if second_ok3 b c then
                match rest' with
                | [] => Some (mkUtf8Error idx None)
                | d :: rest'' =>
                    if is_cont d then run_utf8_validation rest'' (idx + 3)%nat
                    else Some (mkUtf8Error idx (Some 2%nat))
                end
              else Some (mkUtf8Error idx (Some 1%nat))
          end
      | 4%nat =>
          match rest with
          | [] => Some (mkUtf8Error idx None)
          | c :: rest' =>
              if second_ok4 b c then
                match rest' with
                | [] => Some (mkUtf8Error idx None)
                | d :: rest'' =>
                    if is_cont d then
                      match rest'' with
                      | [] => Some (mkUtf8Error idx None)
                      | e :: rest''' =>
                          if is_cont e then run_utf8_validation rest''' (idx + 4)%nat
                          else Some (mkUtf8Error idx (Some 3%nat))
                      end
                    else Some (mkUtf8Error idx (Some 2%nat))
                end
              else Some (mkUtf8Error idx (Some 1%nat))
          end
      | _ => Some (mkUtf8Error idx (Some 1%nat))
      end
  end.

Inductive result (A E : Type) : Type :=
| Ok (a : A)
| Err (e : E).
Arguments Ok {A E} a.
Arguments Err {A E} e.

(** [String::from_utf8]: the bytes become the string unchanged when they
    are valid UTF-8. *)
Definition from_utf8 (bs : list Z) : result (list Z) Utf8Error :=
  match run_utf8_validation bs 0 with
  | None => Ok bs
  | Some e => Err e
  end.

(** Decimal rendering of a [usize] / [u8] by [Display]. *)
Definition nat_to_string (n : nat) : string := pretty (N.of_nat n).

(** [impl Display for Utf8Error]. *)
Definition utf8_error_to_string (e : Utf8Error) : string :=
  match error_len e with
  | Some n => ("invalid utf-8 sequence of " ++ nat_to_string n ++ " bytes from index "
                ++ nat_to_string (valid_up_to e))%string
  | None => ("incomplete utf-8 byte sequence from index " ++ nat_to_string (valid_up_to e))%string
  end.

Example utf8_error_display :
  utf8_error_to_string (mkUtf8Error 0 (Some 1%nat))
  = "invalid utf-8 sequence of 1 bytes from index 0"%string.
Proof. reflexivity. Qed.

Example from_utf8_e_acute : from_utf8 [0xC3; 0xA9] = Ok [0xC3; 0xA9].
Proof. reflexivity. Qed.

Example from_utf8_bad : from_utf8 [0x61; 0xFF] = Err (mkUtf8Error 1 (Some 1%nat)).
Proof. reflexivity. Qed.

Example from_utf8_short : from_utf8 [0x61; 0xE2; 0x82] = Err (mkUtf8Error 1 None).
Proof. reflexivity. Qed.

(* ------------------------------------------------------------------ *)
(** ** Errors *)

(** An [anyhow::Error] carrying the context string of the failed [?],
    or a panic. Both end the task that raised them. *)
Inductive Error :=
| Anyhow (context : string)
| Panic (message : string).

(* ------------------------------------------------------------------ *)
(** ** Stripping ANSI escapes ([strip_ansi_escapes::strip_str]) *)

(** [strip_ansi_escapes::strip_str] (0.2.1, on [vte] 0.14): the bytes of
    the string go through one [vte::Parser::advance] call, and the
    [Performer] writes each printed [char] and the line feeds among the
    executed controls; dispatched sequences, [put] and hooks write nothing.

    The parser states below merge the [vte] states that behave alike for
    that output: the CSI entry, parameter, intermediate and ignore states
    ([CsiSeq]); DCS passthrough, DCS ignore and SOS/PM/APC strings
    ([IgnoredString]). [GroundUtf8 acc]: in the ground state, [acc] holds
    the first bytes of a multi-byte UTF-8 sequence not yet complete (the
    ground state decodes its input up to the next ESC as UTF-8). *)
Inductive vte_state :=
| Ground
| GroundUtf8 (acc : list Z)
| Escape
| EscapeIntermediate
| CsiSeq
| OscString
| DcsEntry
| DcsParam
| DcsIntermediate
| IgnoredString.

(** C0 controls that [vte] executes outside the ground state. *)
Definition c0_execute (b : Z) : bool :=
  (b <=? 0x17) || (b =? 0x19) || ((0x1C <=? b) && (b <=? 0x1F)).

(** [Performer::execute] writes only line feeds. *)
Definition execute_out (b : Z) : list Z := if b =? 0x0A then [b] else [].

(** U+FFFD, printed for an invalid UTF-8 sequence in the ground state. *)
Definition replacement : list Z := [0xEF; 0xBF; 0xBD].

(** [Parser::advance_ground] on one byte: ESC starts an escape; an ASCII
    control is executed, any other ASCII byte printed; a byte that cannot
    start a UTF-8 sequence is executed when it is at most 0x9F, else
    printed as U+FFFD; a lead byte starts a multi-byte sequence. *)
Definition ground_step (b : Z) : vte_state * list Z :=
  if b =? 0x1B then (Escape, [])
  else if b <? 0x80 then (Ground, if b <? 0x20 then execute_out b else [b])
  else match utf8_char_width b with
       | O => (Ground, if b <=? 0x9F then [] else replacement)
       | _ => (GroundUtf8 [b], [])
       end.

(** The next byte of a multi-byte sequence whose bytes so far are [acc]
    is accepted by [core::str]'s validation. *)
Definition utf8_next_ok (acc : list Z) (x : Z) : bool :=
  match acc with
  | [f] => match utf8_char_width f with
           | 3%nat => second_ok3 f x
           | 4%nat => second_ok4 f x
           | _ => is_cont x
           end
  | _ => is_cont x
  end.

(** A complete sequence is a C1 control (U+0080..U+009F), which the ground
    state executes instead of printing. *)
Definition is_c1 (cs : list Z) : bool :=
  match cs with
  | [f; c] => (f =? 0xC2) && (c <=? 0x9F)
  | _ => false
  end.

Definition vte_step (st : vte_state) (b : Z) : vte_state * list Z :=
  match st with
  | Ground => ground_step b
  | GroundUtf8 acc =>
      if b =? 0x1B then (Escape, replacement)
      else if utf8_next_ok acc b then
        let acc' := acc ++ [b] in
        if Nat.eqb (List.length acc') (utf8_char_width (hd 0 acc))
        then (Ground, if is_c1 acc' then [] else acc')
        else (GroundUtf8 acc', [])
      else let '(st', out) := ground_step b in (st', replacement ++ out)
  | _ =>
  if (b =? 0x18) || (b =? 0x1A) then (Ground, [])
  else if b =? 0x1B then (Escape, [])
  else match st with
  | Escape =>
      if c0_execute b then (Escape, execute_out b)
      else if (0x20 <=? b) && (b <=? 0x2F) then (EscapeIntermediate, [])
      else if b =? 0x50 then (DcsEntry, [])
      else if b =? 0x5B then (CsiSeq, [])
      else if b =? 0x5D then (OscString, [])
      else if (b =? 0x58) || (b =? 0x5E) || (b =? 0x5F) then (IgnoredString, [])
      else if (0x30 <=? b) && (b <=? 0x7E) then (Ground, [])
      else (Escape, [])
  | EscapeIntermediate =>
      if c0_execute b then (EscapeIntermediate, execute_out b)
      else if (0x30 <=? b) && (b <=? 0x7E) then (Ground, [])
      else (EscapeIntermediate, [])
  | CsiSeq =>
      if c0_execute b then (CsiSeq, execute_out b)
      else if (0x40 <=? b) && (b <=? 0x7E) then (Ground, [])
      else (CsiSeq, [])
  | OscString => if b =? 0x07 then (Ground, []) else (OscString, [])
  | DcsEntry =>
      if (0x40 <=? b) && (b <=? 0x7E) then (IgnoredString, [])
      else if (0x20 <=? b) && (b <=? 0x2F) then (DcsIntermediate, [])
      else if (0x30 <=? b) && (b <=? 0x3F) then (DcsParam, [])
      else (DcsEntry, [])
  | DcsParam =>
      if (0x40 <=? b) && (b <=? 0x7E) then (IgnoredString, [])
      else if (0x20 <=? b) && (b <=? 0x2F) then (DcsIntermediate, [])
      else if (0x3C <=? b) && (b <=? 0x3F) then (IgnoredString, [])
      else (DcsParam, [])
  | DcsIntermediate =>
      if (0x30 <=? b) && (b <=? 0x7E) then (IgnoredString, [])
      else (DcsIntermediate, [])
  | IgnoredString => if b =? 0x9C then (Ground, []) else (IgnoredString, [])
  | _ => (st, [])
  end
  end.

(** The bytes of a sequence left incomplete at the end stay in the
    parser's buffer and are never printed. *)
Fixpoint strip_go (st : vte_state) (bs : list Z) : list Z :=
  match bs with
  | [] => []
  | b :: rest => let '(st', out) := vte_step st b in out ++ strip_go st' rest
  end.

Definition strip_str (s : list Z) : list Z := strip_go Ground s.

Example strip_color :
  strip_str (bytes_of_string (String (ascii_of_nat 27) "[31mred" ++ String (ascii_of_nat 27) "[0m")%string)
  = bytes_of_string "red".
Proof. reflexivity. Qed.

(** A C1 control (U+009B, the one-byte CSI, bytes C2 9B) is executed and
    dropped, not printed; DEL is printed. *)
Example strip_c1_csi : strip_str [0xC2; 0x9B; 0x41] = [0x41].
Proof. reflexivity. Qed.

Example strip_del : strip_str [0x7F] = [0x7F].
Proof. reflexivity. Qed.

(** A string started by ESC P (DCS) and ended by the one-byte string
    terminator 0x9C leaves nothing behind. *)
Example strip_dcs_st : strip_str [0x1B; 0x50; 0x71; 0x78; 0x9C; 0x41] = [0x41].
Proof. reflexivity. Qed.

(* ------------------------------------------------------------------ *)
(** ** Formatter (main.rs 214-268, discord.rs 15-71) *)

(** [bollard::container::LogOutput]. *)
Inductive LogOutput :=
| StdErr (message : list Z)
| StdOut (message : list Z)
| StdIn (message : list Z)
| Console (message : list Z).

(** The [Container] of main.rs. *)
Record Container := mkContainer {
  id : string;
  name : string;
  image : string;
  command : string;
  status : string;
  logs : list LogOutput
}.

Definition log_message (l : LogOutput) : list Z :=
  match l with
  | StdErr m | StdOut m | StdIn m | Console m => m
  end.

Definition utf8_placeholder (e : Utf8Error) : list Z :=
  bytes_of_string ("-- Failed to parse bytes as utf8: " ++ utf8_error_to_string e)%string.

(** One chunk: [strip_str(String::from_utf8(message).unwrap_or_else(..))
    .chars().collect::<String>()]; the final [chars().collect()] is the
    identity. *)
Definition log_chunk_text (l : LogOutput) : list Z :=
  strip_str (match from_utf8 (log_message l) with
             | Ok s => s
             | Err e => utf8_placeholder e
             end).

(** The [logs] string: all chunks, in order. *)
Definition format_logs (ls : list LogOutput) : list Z :=
  List.concat (map log_chunk_text ls).

(** [&logs[(logs.len() as i64 - 3900).max(0) as usize..]]: [len] is the
    byte length, and slicing a [str] at an index that is not a char
    boundary panics. *)
Definition log_tail (s : list Z) : result (list Z) Error :=
  let start := Z.to_nat (Z.max (Z.of_nat (List.length s) - 3900) 0) in
  if is_char_boundary s start then Ok (drop start s)
  else Err (Panic "byte index is not a char boundary").

Definition CARGO_PKG_NAME : string := "discord-docker-status".
(** The crate version lives in Cargo.toml, outside the sources; only its
    length matters below (embed size limits). *)
Definition CARGO_PKG_VERSION : string := "0.1.0".

(** The embed fields the code sets ([kind] is "rich", the others [None]). *)
Record Embed := mkEmbed {
  author_name : list Z;
  color : Z;
  description : list Z;
  footer_text : list Z;
  timestamp : Z;
  title : list Z
}.

(** [Timestamp::from_micros]: fails outside the years -9999..9999. *)
Definition timestamp_from_micros (us : Z) : option Z :=
  if (-377705116800000000 <=? us) && (us <=? 253402300799999999) then Some us else None.

Definition tick : list Z := bytes_of_string "`".
Definition nl : list Z := [0x0A].

(** [embed_container(container, logs)] of discord.rs, which main.rs inlines
    with [logs = container.logs]; [now] is [Utc::now().timestamp_micros()]. *)
Definition embed_container (c : Container) (ls : list LogOutput) (now : Z) : result Embed Error :=
  let text := format_logs ls in
  match log_tail text with
  | Err e => Err e
  | Ok tail =>
      match timestamp_from_micros now with
      | None => Err (Anyhow "Failed to get timestamp")
      | Some ts =>
          Ok {| author_name := bytes_of_string (name c ++ " (" ++ id c ++ ")")%string;
                color := 0x3772FF;
                description :=
                  bytes_of_string "Image " ++ tick ++ bytes_of_string (image c) ++ tick ++ nl
                  ++ bytes_of_string "Running " ++ tick ++ bytes_of_string (command c) ++ tick
                  ++ bytes_of_string ":" ++ nl ++ tick ++ tick ++ tick ++ tail ++ tick ++ tick ++ tick;
                footer_text := bytes_of_string (CARGO_PKG_NAME ++ " (" ++ CARGO_PKG_VERSION ++ ")")%string;
                timestamp := ts;
                title := bytes_of_string (status c) |}
      end
  end.

(* ------------------------------------------------------------------ *)
(** ** Calls, lock events, loop outcomes *)

(** The external calls of both loops. *)
Inductive call :=
| ListContainers
| Logs (cid : string)
| GuildChannels
| DeleteChannel (ch : Z)
| CreateGuildChannel (cname : string)
| CreateMessage (ch : Z)
| UpdateMessage (ch msg : Z).

(** Observable events: taking and releasing the [Store] mutex, an external
    call with its reply ([None] when the call failed), a warning log. *)
Inductive event :=
| EvLock
| EvUnlock
| EvCall (c : call) (reply : option Z)
| EvWarn (cid : option string).

(** How an unbounded loop stands after the modelled iterations: still
    running, or returned [Err] (through a [?]) in the given state. *)
Inductive outcome (S : Type) :=
| Running (s : S)
| Exited (e : Error) (s : S).
Arguments Running {S} s.
Arguments Exited {S} e s.


(* ------------------------------------------------------------------ *)
(** ** Shared snapshot ([struct Store]) *)

Record Store := mkStore {
  containers : gmap string Container;
  to_remove : list string
}.

(* ------------------------------------------------------------------ *)
(** ** Poller ([container_thread], main.rs 60-148) *)

(** [bollard::models::ContainerSummary], the fields the code reads. *)
Record ContainerSummary := mkSummary {
  cs_id : option string;
  cs_names : option (list string);
  cs_image : option string;
  cs_command : option string;
  cs_status : option string
}.

(** [.into_iter().collect::<Option<Vec<_>>>()]. *)
Fixpoint collect_options {A : Type} (l : list (option A)) : option (list A) :=
  match l with
  | [] => Some []
  | None :: _ => None
  | Some x :: rest =>
      match collect_options rest with
      | Some xs => Some (x :: xs)
      | None => None
      end
  end.

(** The array [x] of main.rs 79-90. *)
Definition summary_fields (c : ContainerSummary) : option (list string) :=
  collect_options
    [cs_id c;
     match cs_names c with Some ns => head ns | None => None end;
     cs_image c; cs_command c; cs_status c].
Arguments summary_fields : simpl never.

Definition well_formed (c : ContainerSummary) : bool :=
  match summary_fields c with
  | Some [_; _; _; _; _] => true
  | _ => false
  end.

(** The log stream docker returns for one container: its items, each a
    [LogOutput] or a stream error. *)
Definition LogStream := list (result LogOutput string).

(** [.collect::<Vec<_>>().await.into_iter().flatten()]: the [Ok] items. *)
Fixpoint flatten_logs (s : LogStream) : list LogOutput :=
  match s with
  | [] => []
  | Ok l :: rest => l :: flatten_logs rest
  | Err _ :: rest => flatten_logs rest
  end.

Definition set_logs (c : Container) (ls : list LogOutput) : Container :=
  mkContainer (id c) (name c) (image c) (command c) (status c) ls.

(** One pass of [for container in containers { .. }] (main.rs 78-131):
    each summary comes with the stream [docker.logs(id, ..)] yields for it. *)
Definition poll_entry (acc : list event * gmap string Container)
    (e : ContainerSummary * LogStream) : list event * gmap string Container :=
  let '(evs, new_store) := acc in
  let '(c, stream) := e in
  match summary_fields c with
  | Some [cid; cname; cimage; ccommand; cstatus] =>
      let lg := flatten_logs stream in
      let entry := match new_store !! cid with
                   | Some x => x
                   | None => mkContainer cid cname cimage ccommand cstatus []
                   end in
      (evs ++ [EvCall (Logs cid) (Some 0)], <[cid := set_logs entry lg]> new_store)
  | _ => (evs ++ [EvWarn (cs_id c)], new_store)
  end.

Definition build_new_store (entries : list (ContainerSummary * LogStream))
    : list event * gmap string Container :=
  foldl poll_entry ([], ∅) entries.

(** main.rs 133-142, under the lock: the keys of the old map missing from
    the new one become [to_remove] (in the map's iteration order), and the
    new map replaces the old one. *)
Definition install (new_store : gmap string Container) (st : Store) : Store :=
  {| to_remove := List.filter (fun k => match new_store !! k with None => true | Some _ => false end)
                    (map fst (map_to_list (containers st)));
     containers := new_store |}.

(** One iteration of the Poller loop, given what [list_containers]
    answers: the new store, or the error that the [?] of main.rs 76 returns,
    and the events of the iteration. *)
Definition container_iteration
    (resp : result (list (ContainerSummary * LogStream)) string) (st : Store)
    : result Store Error * list event :=
  match resp with
  | Err _ => (Err (Anyhow "Failed to list containers"), [EvCall ListContainers None])
  | Ok entries =>
      let '(evs, new_store) := build_new_store entries in
      (Ok (install new_store st), [EvCall ListContainers (Some 0)] ++ evs ++ [EvLock; EvUnlock])
  end.

(** The Poller loop over successive [list_containers] answers (the
    30 s sleep between iterations has no effect on the state). *)
Fixpoint container_thread
    (resps : list (result (list (ContainerSummary * LogStream)) string)) (st : Store)
    : outcome Store :=
  match resps with
  | [] => Running st
  | r :: rest =>
      match container_iteration r st with
      | (Ok st', _) => container_thread rest st'
      | (Err e, _) => Exited e st
      end
  end.

(* ------------------------------------------------------------------ *)
(** ** Notification sink (Discord HTTP API, as far as the code uses it) *)

Definition GUILD : Z := 1209473653759016990.
Definition CATEGORY : Z := 1218191011348615240.

(** A guild channel: id, name, parent category. *)
Record Channel := mkChannel {
  ch_id : Z;
  ch_name : option string;
  ch_parent : option Z
}.

(** The guild's channels, the next snowflake the server hands out, and
    which of the coming calls fail (network, rate limit, ...): the head
    of [sink_fail] decides the next call, an empty list means success. *)
Record Sink := mkSink {
  sink_channels : list Channel;
  sink_next : Z;
  sink_fail : list bool
}.

(** The Reconciler's state: the shared store (accessed under its mutex),
    its private [channels] map (workload id -> channel, message), the sink,
    and the events so far. *)
Record RState := mkRState {
  rs_store : Store;
  rs_channels : gmap string (Z * option Z);
  rs_sink : Sink;
  rs_trace : list event
}.

Definition set_store (st : Store) (s : RState) : RState :=
  mkRState st (rs_channels s) (rs_sink s) (rs_trace s).
Definition set_channels (h : gmap string (Z * option Z)) (s : RState) : RState :=
  mkRState (rs_store s) h (rs_sink s) (rs_trace s).
Definition set_sink (k : Sink) (s : RState) : RState :=
  mkRState (rs_store s) (rs_channels s) k (rs_trace s).
Definition push (ev : event) (s : RState) : RState :=
  mkRState (rs_store s) (rs_channels s) (rs_sink s) (rs_trace s ++ [ev]).

(** State and error monad of [message_update]: an [Err] skips the rest,
    as the [?] operator does. *)
Definition M (A : Type) := RState -> result A Error * RState.

Definition ret {A : Type} (a : A) : M A := fun s => (Ok a, s).

Definition bind {A B : Type} (m : M A) (f : A -> M B) : M B :=
  fun s => match m s with
           | (Ok a, s') => f a s'
           | (Err e, s') => (Err e, s')
           end.

Notation "x <- m ;; k" := (bind m (fun x => k))
  (at level 100, m at next level, right associativity).

Definition throw {A : Type} (e : Error) : M A := fun s => (Err e, s).

Definition lift {A : Type} (r : result A Error) : M A := fun s => (r, s).

Definition get_channels : M (gmap string (Z * option Z)) := fun s => (Ok (rs_channels s), s).

Definition modify_channels (f : gmap string (Z * option Z) -> gmap string (Z * option Z)) : M unit :=
  fun s => (Ok tt, set_channels (f (rs_channels s)) s).

Fixpoint for_each {A : Type} (l : list A) (f : A -> M unit) : M unit :=
  match l with
  | [] => ret tt
  | x :: rest => _ <- f x ;; for_each rest f
  end.

(** A temporary [MutexGuard] taken for [body]: released when [body] ends,
    normally or by an error leaving the function. *)
Definition with_lock {A : Type} (body : M A) : M A :=
  fun s => let '(r, s') := body (push EvLock s) in (r, push EvUnlock s').

(** Takes the failure flag of the next call. *)
Definition next_fails (k : Sink) : bool * Sink :=
  match sink_fail k with
  | [] => (false, k)
  | b :: rest => (b, mkSink (sink_channels k) (sink_next k) rest)
  end.

(** One HTTP call: [run] is what the server does when the request goes
    through ([None]: it answers with an error status); the error carries
    the context of the code's [?]. *)
Definition sink_call {A : Type} (c : call) (ctx : string)
    (run : Sink -> option (A * Sink)) (reply : A -> Z) : M A :=
  fun s =>
    let '(fails, k) := next_fails (rs_sink s) in
    if fails then (Err (Anyhow ctx), push (EvCall c None) (set_sink k s))
    else match run k with
         | Some (a, k') => (Ok a, push (EvCall c (Some (reply a))) (set_sink k' s))
         | None => (Err (Anyhow ctx), push (EvCall c None) (set_sink k s))
         end.

Definition channel_exists (ch : Z) (k : Sink) : bool :=
  existsb (fun c => ch_id c =? ch) (sink_channels k).

(** [http.guild_channels(GUILD)]: all channels of the guild. *)
Definition guild_channels : M (list Channel) :=
  sink_call GuildChannels "Failed to get guild channels"
    (fun k => Some (sink_channels k, k)) (fun _ => 0).

(** [http.delete_channel(id)]; an unknown channel is a 404. *)
Definition delete_channel (ch : Z) : M unit :=
  sink_call (DeleteChannel ch) "Failed to delete channel"
    (fun k => if channel_exists ch k
              then Some (tt, mkSink (List.filter (fun c => negb (ch_id c =? ch)) (sink_channels k))
                                    (sink_next k) (sink_fail k))
              else None)
    (fun _ => 0).

(** [http.create_guild_channel(GUILD, name)]: the name is validated first
    (1 to 100 characters), then [.parent_id(CATEGORY)] and the request. *)
Definition create_guild_channel (cname : string) : M Z :=
  let n := char_count (bytes_of_string cname) in
  if (1 <=? n)%nat && (n <=? 100)%nat then
    sink_call (CreateGuildChannel cname) "Failed to create channel"
      (fun k => Some (sink_next k,
                      mkSink (sink_channels k ++ [mkChannel (sink_next k) (Some cname) (Some CATEGORY)])
                             (sink_next k + 1) (sink_fail k)))
      (fun ch => ch)
  else throw (Anyhow "Failed to set channel name").

(** [http.create_message(channel)...]: a new message id. *)
Definition create_message (ch : Z) : M Z :=
  sink_call (CreateMessage ch) "Failed to send message"
    (fun k => if channel_exists ch k
              then Some (sink_next k, mkSink (sink_channels k) (sink_next k + 1) (sink_fail k))
              else None)
    (fun m => m).

(** [http.update_message(channel, message)...]: the edited message. *)
Definition update_message (ch msg : Z) : M Z :=
  sink_call (UpdateMessage ch msg) "Failed to send message"
    (fun k => if channel_exists ch k then Some (msg, k) else None)
    (fun m => m).

(** [.embeds(..)] validation (twilight-validate 0.15): each field's limit
    counts characters ([chars().count()]); the 6000 total adds up the
    fields' [str::len], in bytes. *)
Definition embed_valid (e : Embed) : bool :=
  (char_count (author_name e) <=? 256)%nat
  && (char_count (description e) <=? 4096)%nat
  && (char_count (footer_text e) <=? 2048)%nat
  && (char_count (title e) <=? 256)%nat
  && (Z.of_nat (List.length (author_name e) + List.length (description e)
      + List.length (footer_text e) + List.length (title e)) <=? 6000).

Definition check_embed (e : Embed) : M unit :=
  if embed_valid e then ret tt else throw (Anyhow "Failed to set message embeds").

(* ------------------------------------------------------------------ *)
(** ** Reconciler ([message_update], main.rs 155-306) *)

(** [store.lock().await.to_remove.drain(..)]: the whole vector is removed
    when the [Drain] is dropped, also if the loop leaves early. *)
Definition drain_to_remove : M (list string) :=
  fun s => (Ok (to_remove (rs_store s)),
            set_store (mkStore (containers (rs_store s)) []) s).

(** The filters of main.rs 176-177. *)
Definition in_category_named (n : string) (c : Channel) : bool :=
  match ch_parent c, ch_name c with
  | Some p, Some cn => (p =? CATEGORY) && String.eqb cn n
  | _, _ => false
  end.

(** Body of [for name in ..] (main.rs 168-186). *)
Definition remove_one (n : string) : M unit :=
  cs <- guild_channels ;;
  for_each (List.filter (in_category_named n) cs)
    (fun c => _ <- delete_channel (ch_id c) ;; modify_channels (delete n)).

(** main.rs 167-187. The guard of [store.lock().await] is a temporary of
    the [for] iterator expression and lives until the loop ends. *)
Definition remove_phase : M unit :=
  with_lock (names <- drain_to_remove ;; for_each names remove_one).

(** [store.lock().await.containers.values().collect::<Vec<_>>()]: the
    references, in the map's iteration order. *)
Definition snapshot_values : M (list Container) :=
  fun s => (Ok (map snd (map_to_list (containers (rs_store s)))), s).

(** Body of [for container in ..] (main.rs 190-299). *)
Definition update_one (now : Z) (c : Container) : M unit :=
  h <- get_channels ;;
  chm <- match h !! id c with
         | Some p => ret p
         | None =>
             ch <- create_guild_channel (name c) ;;
             _ <- modify_channels (insert (id c) (ch, None)) ;;
             ret (ch, None)
         end ;;
  embed <- lift (embed_container c (logs c) now) ;;
  mid <- match snd chm with
         | Some m => _ <- check_embed embed ;; update_message (fst chm) m
         | None => _ <- check_embed embed ;; create_message (fst chm)
         end ;;
  modify_channels (insert (id c) (fst chm, Some mid)).

(** main.rs 189-300: the guard lives until the loop ends, since the
    vector holds references into the guarded map. *)
Definition update_phase (now : Z) : M unit :=
  with_lock (cs <- snapshot_values ;; for_each cs (update_one now)).

(** One iteration of the Reconciler loop; [now] is the clock reading. *)
Definition reconcile_cycle (now : Z) : M unit :=
  _ <- remove_phase ;; update_phase now.

(** The Reconciler loop: before each iteration the store holds what the
    Poller last installed (and did not yet get drained), given with the
    clock reading of that iteration. *)
Fixpoint message_update (envs : list (Store * Z)) (s : RState) : outcome RState :=
  match envs with
  | [] => Running s
  | (st, now) :: rest =>
      match reconcile_cycle now (set_store st s) with
      | (Ok _, s') => message_update rest s'
      | (Err e, s') => Exited e s'
      end
  end.

(** The state after the startup of [message_update]: no channel known. *)
Definition reconciler_init (st : Store) (k : Sink) : RState := mkRState st ∅ k [].

(** Helpers for stating properties of the Poller: the entry of the new
    map a summary starts (before its logs are set), and the summary's id. *)
Definition summary_container (c : ContainerSummary) : option Container :=
  match summary_fields c with
  | Some [cid; cname; cimage; ccommand; cstatus] =>
      Some (mkContainer cid cname cimage ccommand cstatus [])
  | _ => None
  end.

Definition has_id (i : string) (c : ContainerSummary) : bool :=
  match cs_id c with
  | Some j => String.eqb j i
  | None => false
  end.


Definition is_lock_event (ev : event) : bool :=
  match ev with
  | EvLock | EvUnlock => true
  | _ => false
  end.

(** Calls of the removal part of a Reconciler iteration. *)
Definition removal_call (ev : event) : bool :=
  match ev with
  | EvCall GuildChannels _ | EvCall (DeleteChannel _) _ => true
  | _ => false
  end.

(** Calls of the create/update part of a Reconciler iteration. *)
Definition upsert_call (ev : event) : bool :=
  match ev with
  | EvCall (CreateGuildChannel _) _ | EvCall (CreateMessage _) _
  | EvCall (UpdateMessage _ _) _ => true
  | _ => false
  end.

(** A successful [create_message] on channel [ch] is in the trace. *)
Definition created (ch : Z) (tr : list event) : Prop :=
  exists mid, In (EvCall (CreateMessage ch) (Some mid)) tr.

(** Invariant of the Reconciler's [channels] map (main.rs 160): sink ids
    are below the next fresh id, a handle's message field is [None] exactly
    while no message was created on its channel, and no two handles share a
    channel. *)
Definition handles_inv (s : RState) : Prop :=
  Forall (fun c => ch_id c < sink_next (rs_sink s)) (sink_channels (rs_sink s))
  /\ (forall w ch m, rs_channels s !! w = Some (ch, m) -> ch < sink_next (rs_sink s))
  /\ (forall ch mid, In (EvCall (CreateMessage ch) (Some mid)) (rs_trace s) ->
                     ch < sink_next (rs_sink s))
  /\ (forall w ch m, rs_channels s !! w = Some (ch, m) ->
                     (m = None -> ~ created ch (rs_trace s))
                     /\ (forall mid, m = Some mid -> created ch (rs_trace s)))
  /\ (forall w w' ch m m', rs_channels s !! w = Some (ch, m) ->
                           rs_channels s !! w' = Some (ch, m') -> w = w').

(** Hoare triples over [M]: from a state satisfying [P], a success ends
    in [Q], a failure in a state satisfying [handles_inv]. *)
Definition triple {A : Type} (P : RState -> Prop) (m : M A) (Q : A -> RState -> Prop) : Prop :=
  forall s, P s -> match m s with
                   | (Ok a, s') => Q a s'
                   | (Err _, s') => handles_inv s'
                   end.

(** [ch] is a fresh channel id in [s]. *)
Definition fresh_channel (ch : Z) (s : RState) : Prop :=
  ch < sink_next (rs_sink s)
  /\ (forall w p, rs_channels s !! w = Some p -> fst p <> ch)
  /\ ~ created ch (rs_trace s).

(* ------------------------------------------------------------------ *)
(** ** [docker.rs] *)

(** [docker::Container] (docker.rs 10-16): the fields without the logs.
    [docker::logs] (docker.rs 18-43) is [flatten_logs] of the stream, as
    inlined in the Poller. *)
Record DContainer := mkDContainer {
  d_id : string;
  d_name : string;
  d_image : string;
  d_command : string;
  d_status : string
}.

(** The closure of [filter_map] (docker.rs 58-81). *)
Definition dcontainer_of (c : ContainerSummary) : option DContainer :=
  match summary_fields c with
  | Some [cid; cname; cimage; ccommand; cstatus] =>
      Some (mkDContainer cid cname cimage ccommand cstatus)
  | _ => None
  end.

(** [cs.into_iter().filter_map(..).collect_vec()], with the [warn!] of
    each skipped summary. *)
Fixpoint containers_filter_map (cs : list ContainerSummary) : list DContainer * list event :=
  match cs with
  | [] => ([], [])
  | c :: rest =>
      let '(out, evs) := containers_filter_map rest in
      match dcontainer_of c with
      | Some d => (d :: out, evs)
      | None => (out, EvWarn (cs_id c) :: evs)
      end
  end.

(** [docker::containers] (docker.rs 45-86), given what [list_containers]
    answers. *)
Definition docker_containers (resp : result (list ContainerSummary) string)
    : result (list DContainer) Error * list event :=
  match resp with
  | Err _ => (Err (Anyhow "Failed to list containers"), [EvCall ListContainers None])
  | Ok cs =>
      let '(out, evs) := containers_filter_map cs in
      (Ok out, EvCall ListContainers (Some 0) :: evs)
  end.

(** A handle with a message id is known for workload [k]. *)
Definition has_message (k : string) (s : RState) : Prop :=
  exists ch mid, rs_channels s !! k = Some (ch, Some mid).

(** [m] leaves the shared store as it is. *)
Definition keeps_store {A : Type} (m : M A) : Prop :=
  forall s, rs_store (snd (m s)) = rs_store s.

(** An external call that failed: it got no reply. *)
Definition failed_call (ev : event) : bool :=
  match ev with EvCall _ None => true | _ => false end.

(** When [m] returns [Ok], the events it added hold no failed call. *)
Definition ok_no_failed_call {A : Type} (m : M A) : Prop :=
  forall s a s', m s = (Ok a, s') ->
  exists t, rs_trace s' = rs_trace s ++ t /\ Forall (fun ev => failed_call ev = false) t.

(** An [update_message] call, answered or not. *)
Definition update_call_event (ev : event) : Prop :=
  exists ch m r, ev = EvCall (UpdateMessage ch m) r.

(* ================================================================== *)
(** * Properties *)

(** Concrete inputs used below. *)
Definition e_acute : list Z := [0xC3; 0xA9].
Definition split_tail_text : list Z := e_acute ++ repeat 0x61 3899.
Definition short_tail_text : list Z := repeat 0x61 3900 ++ e_acute.
Definition web_container (ls : list LogOutput) : Container :=
  mkContainer "4f2a" "/web" "nginx" "nginx -g daemon off;" "Up 2 hours" ls.
Definition clock : Z := 1760000000000000.
Definition web_summary : ContainerSummary :=
  mkSummary (Some "4f2a"%string) (Some ["/web"%string]) (Some "nginx"%string)
    (Some "nginx -g daemon off;"%string) (Some "Up 2 hours"%string).
Definition web_summary_renamed : ContainerSummary :=
  mkSummary (Some "4f2a"%string) (Some ["/web-old"%string]) (Some "nginx:1"%string)
    (Some "sh"%string) (Some "Exited (0)"%string).
Definition old_channel : Channel := mkChannel 5 (Some "old"%string) (Some CATEGORY).
Definition locked_state : RState :=
  reconciler_init (mkStore {[ "4f2a" := web_container [] ]} ["old"%string])
    (mkSink [old_channel] 100 []).
Definition dup_listing : list (ContainerSummary * LogStream) :=
  [(web_summary, [Ok (StdOut [0x61])]);
   (mkSummary None (Some ["/x"%string]) None None None, []);
   (web_summary_renamed, [Ok (StdOut [0x62]); Err "stream closed"])].
Definition long_name : string := string_of_list_ascii (repeat "x"%char 101).
Definition unnamed_state : RState := reconciler_init (mkStore ∅ []) (mkSink [] 100 []).
Definition long_command : string := string_of_list_ascii (repeat "y"%char 200).
Definition verbose_container : Container :=
  mkContainer "4f2a" "/web" "nginx" long_command "Up 2 hours" [StdOut (repeat 0x61 3900)].
Definition web_channel : Channel := mkChannel 100 (Some "/web"%string) (Some CATEGORY).
Definition posted_state (c : Container) : RState :=
  mkRState (mkStore {[ "4f2a" := c ]} []) {[ "4f2a" := (100, Some 101) ]}
    (mkSink [web_channel] 102 []) [].

(* ------------------------------------------------------------------ *)
(** ** Error propagation *)


(* ------------------------------------------------------------------ *)
(** ** The formatter *)

(** C2 (code_bug): the tail is cut by bytes. When the cut falls inside a
    multi-byte character the slice panics; when the text ends in one, the
    tail is shorter than 3900 characters although the text is longer. *)
Theorem C2_log_tail_counts_bytes :
  format_logs [StdOut split_tail_text] = split_tail_text
  /\ char_count split_tail_text = 3900%nat
  /\ log_tail split_tail_text = Err (Panic "byte index is not a char boundary")
  /\ embed_container (web_container [StdOut split_tail_text]) [StdOut split_tail_text] clock
     = Err (Panic "byte index is not a char boundary")
  /\ char_count short_tail_text = 3901%nat
  /\ (exists t, log_tail short_tail_text = Ok t /\ char_count t = 3899%nat).
Proof.
  split; [vm_compute; reflexivity|]. split; [vm_compute; reflexivity|].
  split; [vm_compute; reflexivity|]. split; [vm_compute; reflexivity|].
  split; [vm_compute; reflexivity|].
  eexists. split; [vm_compute; reflexivity|]. vm_compute. reflexivity.
Qed.

(** C3 (code_bug): an invalid chunk does become the placeholder text,
    but formatting the workload still panics at the tail slice when the
    3900-byte cut splits a character of another chunk. *)
Theorem C3_format_panics_despite_placeholder :
  let ls := [StdOut [0xFF]; StdOut split_tail_text] in
  from_utf8 [0xFF] = Err (mkUtf8Error 0 (Some 1%nat))
  /\ format_logs ls = utf8_placeholder (mkUtf8Error 0 (Some 1%nat)) ++ split_tail_text
  /\ embed_container (web_container ls) ls clock
     = Err (Panic "byte index is not a char boundary").
Proof.
  cbn zeta. split; [reflexivity|]. split; vm_compute; reflexivity.
Qed.

(* ------------------------------------------------------------------ *)
(** ** The Poller *)

(** C5 (counterexample): removals not yet drained are not kept: the
    computed removals replace [to_remove]. *)
Lemma C5_pending_removals_overwritten :
  let st := mkStore {[ "4f2a" := web_container [] ]} ["91bc"%string] in
  container_iteration (Ok []) st
    = (Ok (mkStore ∅ ["4f2a"%string]), [EvCall ListContainers (Some 0); EvLock; EvUnlock])
  /\ ~ In "91bc"%string (to_remove (mkStore ∅ ["4f2a"%string])).
Proof.
  cbn zeta. split; [vm_compute; reflexivity|]. cbn. intros [H|[]]. discriminate.
Qed.

Lemma install_to_remove (new_store : gmap string Container) (st : Store) (k : string) :
  In k (to_remove (install new_store st))
  <-> is_Some (containers st !! k) /\ new_store !! k = None.
Proof.
  unfold install; cbn. rewrite filter_In, in_map_iff. split.
  - intros [[[k' v] [Hk Hin]] Hnone]. cbn in Hk; subst k'.
    apply list_elem_of_In, elem_of_map_to_list in Hin. split; [eauto|].
    destruct (new_store !! k); [discriminate|reflexivity].
  - intros [[v Hv] Hnone]. split.
    + exists (k, v). split; [reflexivity|].
      by apply list_elem_of_In, elem_of_map_to_list.
    + by rewrite Hnone.
Qed.

(** C5 (amended): in the same locked update, the Poller replaces the
    workload map by the new one and sets [to_remove] to the ids of the
    previous map that the new map lacks; earlier, undrained removals are
    dropped. *)
Theorem C5_install_replaces_removals :
  forall entries st,
    match container_iteration (Ok entries) st with
    | (Ok st', evs) =>
        containers st' = snd (build_new_store entries)
        /\ (forall k, In k (to_remove st')
                      <-> is_Some (containers st !! k)
                          /\ snd (build_new_store entries) !! k = None)
        /\ (exists pre, evs = pre ++ [EvLock; EvUnlock])
    | (Err _, _) => False
    end.
Proof.
  intros entries st. unfold container_iteration.
  destruct (build_new_store entries) as [evs new_store] eqn:Hb. cbn.
  split; [reflexivity|]. split.
  - intros k. apply install_to_remove.
  - exists (EvCall ListContainers (Some 0) :: evs). reflexivity.
Qed.

Ltac destruct_fields c :=
  destruct (summary_fields c) as [[|? [|? [|? [|? [|? [|]]]]]]|].

Lemma summary_fields_id (c : ContainerSummary) cid n im cm st :
  summary_fields c = Some [cid; n; im; cm; st] -> cs_id c = Some cid.
Proof.
  unfold summary_fields.
  destruct (cs_id c), (match cs_names c with Some ns => head ns | None => None end),
    (cs_image c), (cs_command c), (cs_status c); cbn; intros H; try discriminate.
  by injection H as -> _.
Qed.

Lemma poll_entry_malformed acc e :
  well_formed (fst e) = false ->
  poll_entry acc e = (fst acc ++ [EvWarn (cs_id (fst e))], snd acc).
Proof.
  destruct acc as [evs m], e as [c str]. unfold well_formed, poll_entry, fst, snd.
  destruct_fields c; congruence.
Qed.

Lemma poll_entry_snd_indep acc acc' e :
  snd acc = snd acc' -> snd (poll_entry acc e) = snd (poll_entry acc' e).
Proof.
  destruct acc as [evs m], acc' as [evs' m'], e as [c str]. cbn. intros ->.
  unfold poll_entry. destruct_fields c; reflexivity.
Qed.

Lemma poll_entry_events acc e : exists t, fst (poll_entry acc e) = fst acc ++ t.
Proof.
  destruct acc as [evs m], e as [c str]. unfold poll_entry.
  destruct_fields c; cbn; eauto.
Qed.

Lemma foldl_poll_events l acc : exists t, fst (foldl poll_entry acc l) = fst acc ++ t.
Proof.
  revert acc. induction l as [|e l IH]; intros acc; cbn.
  - exists []. by rewrite app_nil_r.
  - destruct (poll_entry_events acc e) as [t1 H1].
    destruct (IH (poll_entry acc e)) as [t2 H2].
    exists (t1 ++ t2). rewrite H2, H1. by rewrite app_assoc.
Qed.

Lemma foldl_poll_filter l acc acc' :
  snd acc = snd acc' ->
  snd (foldl poll_entry acc l)
  = snd (foldl poll_entry acc' (List.filter (fun e => well_formed (fst e)) l)).
Proof.
  revert acc acc'. induction l as [|e l IH]; intros acc acc' Hs; cbn; [done|].
  destruct (well_formed (fst e)) eqn:Hw; cbn; apply IH.
  - by apply poll_entry_snd_indep.
  - by rewrite poll_entry_malformed.
Qed.

Lemma foldl_poll_warns l acc e :
  In e l -> well_formed (fst e) = false ->
  In (EvWarn (cs_id (fst e))) (fst (foldl poll_entry acc l)).
Proof.
  revert acc. induction l as [|e' l IH]; intros acc Hin Hw; cbn; [destruct Hin|].
  destruct Hin as [-> |Hin]; [|by apply IH].
  destruct (foldl_poll_events l (poll_entry acc e)) as [t Ht]. rewrite Ht.
  rewrite poll_entry_malformed by done. cbn.
  apply in_or_app. left. apply in_or_app. right. by left.
Qed.

Lemma foldl_poll_keys l acc i :
  is_Some (snd (foldl poll_entry acc l) !! i) ->
  is_Some (snd acc !! i)
  \/ exists e, In e l /\ well_formed (fst e) = true /\ cs_id (fst e) = Some i.
Proof.
  revert acc. induction l as [|e l IH]; intros acc H; cbn in H; [by left|].
  destruct (IH _ H) as [H1|[e' [He' Hw']]]; [|right; exists e'; split; [by right|exact Hw']].
  destruct acc as [evs m], e as [c str]. unfold poll_entry in H1.
  destruct (summary_fields c) as [[|cid [|? [|? [|? [|? [|]]]]]]|] eqn:Hf;
    cbn in H1; try (left; exact H1).
  destruct (decide (cid = i)) as [-> |Hne].
  - right. exists (c, str). cbn. split; [by left|]. split.
    + unfold well_formed. by rewrite Hf.
    + eapply summary_fields_id; exact Hf.
  - left. by rewrite lookup_insert_ne in H1.
Qed.

(** C9: a summary missing any of id, name, image, command or status is
    skipped with a warning: the new map is the one built from the
    well-formed summaries alone, each skipped summary leaves an [EvWarn],
    and every key of the new map is the id of a well-formed summary. *)
Theorem C9_malformed_entries_skipped :
  forall entries : list (ContainerSummary * LogStream),
    snd (build_new_store entries)
      = snd (build_new_store (List.filter (fun e => well_formed (fst e)) entries))
    /\ (forall e, In e entries -> well_formed (fst e) = false ->
                  In (EvWarn (cs_id (fst e))) (fst (build_new_store entries)))
    /\ (forall i, is_Some (snd (build_new_store entries) !! i) ->
                  exists e, In e entries /\ well_formed (fst e) = true
                            /\ cs_id (fst e) = Some i).
Proof.
  intros entries. unfold build_new_store. split; [|split].
  - by apply foldl_poll_filter.
  - intros e Hin Hw. by apply foldl_poll_warns.
  - intros i Hi. destruct (foldl_poll_keys _ _ _ Hi) as [H|H]; [|exact H].
    cbn in H. rewrite lookup_empty in H. by destruct H.
Qed.

Lemma poll_entry_lookup acc e i :
  if well_formed (fst e) && has_id i (fst e)
  then exists c0, summary_container (fst e) = Some c0
       /\ snd (poll_entry acc e) !! i
          = Some (set_logs (match snd acc !! i with Some x => x | None => c0 end)
                           (flatten_logs (snd e)))
  else snd (poll_entry acc e) !! i = snd acc !! i.
Proof.
  destruct acc as [evs m], e as [c str].
  unfold poll_entry, well_formed, has_id, summary_container, fst, snd.
  destruct (summary_fields c) as [[|cid [|? [|? [|? [|? [|]]]]]]|] eqn:Hf;
    cbn; try reflexivity.
  rewrite (summary_fields_id _ _ _ _ _ _ Hf).
  destruct (String.eqb_spec cid i) as [-> |Hne].
  - eexists. split; [reflexivity|]. by rewrite lookup_insert_eq.
  - by rewrite lookup_insert_ne.
Qed.

Lemma foldl_poll_no_match l acc i :
  List.filter (fun e => well_formed (fst e) && has_id i (fst e)) l = [] ->
  snd (foldl poll_entry acc l) !! i = snd acc !! i.
Proof.
  revert acc. induction l as [|e l IH]; intros acc Hf; cbn in *; [done|].
  pose proof (poll_entry_lookup acc e i) as Hs.
  destruct (well_formed (fst e) && has_id i (fst e)); [discriminate|].
  rewrite IH by done. exact Hs.
Qed.

Lemma foldl_poll_match l acc i e1 rest en :
  List.filter (fun e => well_formed (fst e) && has_id i (fst e)) l = e1 :: rest ->
  last (e1 :: rest) = Some en ->
  exists c0, summary_container (fst e1) = Some c0
    /\ snd (foldl poll_entry acc l) !! i
       = Some (set_logs (match snd acc !! i with Some x => x | None => c0 end)
                        (flatten_logs (snd en))).
Proof.
  revert acc e1 rest. induction l as [|e l IH]; intros acc e1 rest Hf Hl; cbn in *;
    [discriminate|].
  pose proof (poll_entry_lookup acc e i) as Hs.
  destruct (well_formed (fst e) && has_id i (fst e)).
  - injection Hf as <- Hrest. destruct Hs as [c0 [Hc0 Hs]].
    exists c0. split; [exact Hc0|].
    destruct rest as [|e2 rest'].
    + cbn in Hl. injection Hl as <-. by rewrite foldl_poll_no_match.
    + destruct (IH (poll_entry acc e) e2 rest' Hrest Hl) as [c2 [_ H2]].
      rewrite H2, Hs. reflexivity.
  - destruct (IH (poll_entry acc e) e1 rest Hf Hl) as [c0 [Hc0 H0]].
    exists c0. split; [exact Hc0|]. by rewrite H0, Hs.
Qed.

(** C10: with several well-formed summaries of one id in a listing, the
    new map has one entry for it: name, image, command and status of the
    first such summary, the logs fetched for the last one. *)
Theorem C10_duplicate_ids_first_fields_last_logs :
  forall (entries : list (ContainerSummary * LogStream)) i e1 rest en,
    List.filter (fun e => well_formed (fst e) && has_id i (fst e)) entries = e1 :: rest ->
    last (e1 :: rest) = Some en ->
    exists c0, summary_container (fst e1) = Some c0
      /\ snd (build_new_store entries) !! i = Some (set_logs c0 (flatten_logs (snd en))).
Proof.
  intros entries i e1 rest en Hf Hl. unfold build_new_store.
  destruct (foldl_poll_match entries ([], ∅) i e1 rest en Hf Hl) as [c0 [Hc0 H]].
  exists c0. split; [exact Hc0|]. rewrite H. reflexivity.
Qed.

Lemma C10_witness :
  List.filter (fun e => well_formed (fst e) && has_id "4f2a" (fst e)) dup_listing
    = [(web_summary, [Ok (StdOut [0x61])]);
       (web_summary_renamed, [Ok (StdOut [0x62]); Err "stream closed"])]
  /\ exists c0, summary_container web_summary = Some c0
     /\ snd (build_new_store dup_listing) !! "4f2a"%string
        = Some (set_logs c0 [StdOut [0x62]]).
Proof.
  split; [reflexivity|].
  apply (C10_duplicate_ids_first_fields_last_logs dup_listing "4f2a"
           (web_summary, [Ok (StdOut [0x61])])
           [(web_summary_renamed, [Ok (StdOut [0x62]); Err "stream closed"])]
           (web_summary_renamed, [Ok (StdOut [0x62]); Err "stream closed"]));
    reflexivity.
Defined.

(* ------------------------------------------------------------------ *)
(** ** Events emitted by Reconciler actions *)

(** [m] only appends events satisfying [P] to the trace. *)
Definition emits {A : Type} (P : event -> bool) (m : M A) : Prop :=
  forall s, exists t, rs_trace (snd (m s)) = rs_trace s ++ t /\ forallb P t = true.

Section Emits.
Variable P : event -> bool.

Lemma emits_silent {A : Type} (m : M A) :
  (forall s, rs_trace (snd (m s)) = rs_trace s) -> emits P m.
Proof. intros H s. exists []. rewrite H, app_nil_r. done. Qed.

Lemma emits_ret {A : Type} (a : A) : emits P (ret a).
Proof. by apply emits_silent. Qed.

Lemma emits_throw {A : Type} (e : Error) : emits P (@throw A e).
Proof. by apply emits_silent. Qed.

Lemma emits_lift {A : Type} (r : result A Error) : emits P (lift r).
Proof. by apply emits_silent. Qed.

Lemma emits_get_channels : emits P get_channels.
Proof. by apply emits_silent. Qed.

Lemma emits_modify_channels f : emits P (modify_channels f).
Proof. by apply emits_silent. Qed.

Lemma emits_drain : emits P drain_to_remove.
Proof. by apply emits_silent. Qed.

Lemma emits_snapshot : emits P snapshot_values.
Proof. by apply emits_silent. Qed.

Lemma emits_bind {A B : Type} (m : M A) (f : A -> M B) :
  emits P m -> (forall a, emits P (f a)) -> emits P (bind m f).
Proof.
  intros Hm Hf s. unfold bind.
  destruct (Hm s) as [t1 [H1 F1]].
  destruct (m s) as [[a|e] s'] eqn:E; cbn in H1 |- *.
  - destruct (Hf a s') as [t2 [H2 F2]]. exists (t1 ++ t2).
    rewrite H2, H1, app_assoc. split; [done|]. by rewrite forallb_app, F1, F2.
  - by exists t1.
Qed.

Lemma emits_for_each {A : Type} (l : list A) (f : A -> M unit) :
  (forall x, emits P (f x)) -> emits P (for_each l f).
Proof.
  intros Hf. induction l as [|x l IH]; cbn.
  - apply emits_ret.
  - apply emits_bind; [apply Hf|]. intros _. exact IH.
Qed.

Lemma emits_sink_call {A : Type} c ctx (run : Sink -> option (A * Sink)) reply :
  (forall r, P (EvCall c r) = true) -> emits P (sink_call c ctx run reply).
Proof.
  intros Hc s. unfold sink_call.
  destruct (next_fails (rs_sink s)) as [fails k].
  destruct fails; [|destruct (run k) as [[a k']|]];
    eexists; (split; [reflexivity|]); cbn; by rewrite Hc.
Qed.

Lemma emits_check_embed e : emits P (check_embed e).
Proof. unfold check_embed. destruct (embed_valid e); [apply emits_ret|apply emits_throw]. Qed.
End Emits.

Create HintDb emits_db.
#[local] Hint Resolve emits_ret emits_throw emits_lift emits_get_channels
  emits_modify_channels emits_drain emits_snapshot emits_check_embed : emits_db.

(** Splits the action into its steps and closes the silent ones. *)
Ltac solve_emits :=
  repeat match goal with
  | |- emits _ (bind _ _) => apply emits_bind; [|intros ?]
  | |- emits _ (for_each _ _) => apply emits_for_each; intros ?
  | |- emits _ (sink_call _ _ _ _) => apply emits_sink_call; intros ?; reflexivity
  | |- emits _ (match ?x with _ => _ end) => destruct x
  | |- emits _ (if ?b then _ else _) => destruct b
  | |- emits _ _ => solve [auto with emits_db]
  end.

Lemma with_lock_trace {A : Type} (P : event -> bool) (body : M A) (s : RState) :
  emits P body ->
  fst (with_lock body s) = fst (body (push EvLock s))
  /\ exists t, rs_trace (snd (with_lock body s)) = rs_trace s ++ [EvLock] ++ t ++ [EvUnlock]
               /\ forallb P t = true.
Proof.
  intros Hb. unfold with_lock.
  destruct (Hb (push EvLock s)) as [t [Ht Ft]].
  destruct (body (push EvLock s)) as [r s'] eqn:E. cbn in Ht |- *.
  split; [reflexivity|]. exists t. split; [|exact Ft].
  rewrite Ht. cbn. by rewrite <- !app_assoc.
Qed.

Lemma remove_body_emits :
  emits removal_call (names <- drain_to_remove ;; for_each names remove_one).
Proof. unfold remove_one, guild_channels, delete_channel. solve_emits. Qed.

Lemma update_body_emits (now : Z) :
  emits upsert_call (cs <- snapshot_values ;; for_each cs (update_one now)).
Proof.
  unfold update_one, create_guild_channel, create_message, update_message. solve_emits.
Qed.

Lemma reconcile_cycle_trace (now : Z) (s : RState) :
  exists t1 t2,
    rs_trace (snd (reconcile_cycle now s)) = rs_trace s ++ [EvLock] ++ t1 ++ [EvUnlock] ++ t2
    /\ forallb removal_call t1 = true
    /\ (t2 = [] \/ exists t2', t2 = [EvLock] ++ t2' ++ [EvUnlock]
                               /\ forallb upsert_call t2' = true).
Proof.
  unfold reconcile_cycle, bind, remove_phase.
  destruct (with_lock_trace _ _ s remove_body_emits) as [_ [t1 [H1 F1]]].
  destruct (with_lock _ s) as [[u|e] s'] eqn:E; cbn in H1 |- *.
  - unfold update_phase.
    destruct (with_lock_trace _ _ s' (update_body_emits now)) as [_ [t2 [H2 F2]]].
    exists t1, ([EvLock] ++ t2 ++ [EvUnlock]). rewrite H2, H1.
    split; [cbn; rewrite <- ?app_assoc; cbn; rewrite <- ?app_assoc; done|]. split; [exact F1|]. right. by exists t2.
  - exists t1, []. split; [rewrite H1; cbn; rewrite <- ?app_assoc; cbn; by rewrite ?app_nil_r|]. split; [exact F1|]. by left.
Qed.

Lemma forallb_weaken (P Q : event -> bool) (t : list event) :
  (forall ev, P ev = true -> Q ev = true) -> forallb P t = true -> forallb Q t = true.
Proof.
  intros HPQ H. apply forallb_forall. intros x Hx.
  apply HPQ. by apply (proj1 (forallb_forall P t) H).
Qed.

(** C8: within one Reconciler iteration, the events split into a first
    part holding only the lock events and the removal calls
    ([guild_channels], [delete_channel]) and a second part holding only
    the lock events and the create/update calls: every channel deletion
    of the iteration is issued before any channel or message creation or
    message update. *)
Theorem C8_removals_before_upserts :
  forall (now : Z) (s : RState),
    exists t1 t2,
      rs_trace (snd (reconcile_cycle now s)) = rs_trace s ++ t1 ++ t2
      /\ forallb (fun ev => is_lock_event ev || removal_call ev) t1 = true
      /\ forallb (fun ev => is_lock_event ev || upsert_call ev) t2 = true.
Proof.
  intros now s. destruct (reconcile_cycle_trace now s) as [t1 [t2 [H [F1 F2]]]].
  exists ([EvLock] ++ t1 ++ [EvUnlock]), t2. split; [rewrite H; cbn; rewrite <- ?app_assoc; done|]. split.
  - cbn. rewrite forallb_app. cbn. rewrite andb_true_r.
    eapply forallb_weaken; [|exact F1]. intros ev Hev. by rewrite Hev, orb_true_r.
  - destruct F2 as [-> |[t2' [-> F2]]]; [done|].
    cbn. rewrite forallb_app. cbn. rewrite andb_true_r.
    eapply forallb_weaken; [|exact F2]. intros ev Hev. by rewrite Hev, orb_true_r.
Qed.

(* ------------------------------------------------------------------ *)
(** ** The lock on the shared store *)

(** C6 (code bug): the Reconciler makes its sink calls while holding the
    lock. The guard of [store.lock().await] in each [for] header is a
    temporary of the iterator expression, so it lives until the loop ends:
    the removal calls fall between the first [EvLock] and [EvUnlock], the
    channel and message creation between the second. *)
Lemma C6_calls_under_lock :
  rs_trace (snd (reconcile_cycle clock locked_state))
  = [EvLock; EvCall GuildChannels (Some 0); EvCall (DeleteChannel 5) (Some 0); EvUnlock;
     EvLock; EvCall (CreateGuildChannel "/web") (Some 100);
     EvCall (CreateMessage 100) (Some 101); EvUnlock].
Proof. vm_compute. reflexivity. Qed.




(* ------------------------------------------------------------------ *)
(** ** Removal of channels *)

Lemma NoDup_map_filter {A B : Type} (g : A -> B) (f : A -> bool) (l : list A) :
  NoDup (map g l) -> NoDup (map g (List.filter f l)).
Proof.
  induction l as [|x l IH]; cbn; intros Hnd; [constructor|].
  inversion Hnd as [|? ? Hx Hl]; subst.
  destruct (f x); cbn; [|by apply IH].
  constructor; [|by apply IH].
  intros Hin. apply Hx. apply list_elem_of_In in Hin. apply list_elem_of_In.
  apply in_map_iff in Hin as [y [Hy Hin]].
  apply filter_In in Hin as [Hin _]. apply in_map_iff. eauto.
Qed.

Lemma NoDup_map_inj {A B : Type} (g : A -> B) (l : list A) x y :
  NoDup (map g l) -> In x l -> In y l -> g x = g y -> x = y.
Proof.
  induction l as [|z l IH]; cbn; [done|]. intros Hnd Hx Hy Hg.
  inversion Hnd as [|? ? Hz Hl]; subst.
  destruct Hx as [<-|Hx], Hy as [<-|Hy]; try done.
  - exfalso. apply Hz. apply list_elem_of_In. rewrite Hg. by apply in_map.
  - exfalso. apply Hz. apply list_elem_of_In. rewrite <- Hg. by apply in_map.
  - by apply IH.
Qed.

Lemma List_filter_filter {A : Type} (f g : A -> bool) (l : list A) :
  List.filter f (List.filter g l) = List.filter (fun x => g x && f x) l.
Proof.
  induction l as [|x l IH]; cbn; [done|].
  destruct (g x); cbn; [destruct (f x); cbn; by rewrite IH|exact IH].
Qed.

Lemma in_category_named_unique k n c :
  in_category_named k c = true -> in_category_named n c = true -> k = n.
Proof.
  unfold in_category_named. destruct (ch_parent c), (ch_name c) as [cn|]; try discriminate.
  intros Hk Hn. apply andb_prop in Hk as [_ Hk], Hn as [_ Hn].
  apply String.eqb_eq in Hk, Hn. congruence.
Qed.

Lemma existsb_filter_other k n (chans : list Channel) :
  k <> n ->
  existsb (in_category_named k) (List.filter (fun c => negb (in_category_named n c)) chans)
  = existsb (in_category_named k) chans.
Proof.
  intros Hne. induction chans as [|c chans IH]; cbn; [done|].
  destruct (in_category_named n c) eqn:Hn; cbn.
  - destruct (in_category_named k c) eqn:Hk.
    + exfalso. apply Hne. eapply in_category_named_unique; eauto.
    + exact IH.
  - by rewrite IH.
Qed.

Lemma existsb_filter_self n (chans : list Channel) :
  existsb (in_category_named n) (List.filter (fun c => negb (in_category_named n c)) chans)
  = false.
Proof.
  induction chans as [|c chans IH]; cbn; [done|].
  destruct (in_category_named n c) eqn:Hn; cbn; [exact IH|]. by rewrite Hn.
Qed.

(** The deletion loop of one drained name, when every call goes through. *)
Lemma delete_loop_ok (n : string) (L : list Channel) (s : RState) :
  sink_fail (rs_sink s) = [] ->
  (forall c, In c L -> channel_exists (ch_id c) (rs_sink s) = true) ->
  NoDup (map ch_id L) ->
  exists s',
    for_each L (fun c => _ <- delete_channel (ch_id c) ;; modify_channels (delete n)) s
      = (Ok tt, s')
    /\ rs_store s' = rs_store s
    /\ sink_fail (rs_sink s') = []
    /\ sink_channels (rs_sink s')
       = List.filter (fun c => negb (existsb (fun d => ch_id d =? ch_id c) L))
                     (sink_channels (rs_sink s))
    /\ rs_channels s' = match L with [] => rs_channels s | _ => delete n (rs_channels s) end.
Proof.
  revert s. induction L as [|c L IH]; intros s Hf Hex Hnd.
  - exists s. cbn. split; [reflexivity|]. split; [done|]. split; [done|]. split; [|done].
    cbn. induction (sink_channels (rs_sink s)) as [|x l IHl]; cbn; congruence.
  - inversion Hnd as [|? ? Hc HL]; subst.
    set (k1 := mkSink (List.filter (fun d => negb (ch_id d =? ch_id c)) (sink_channels (rs_sink s)))
                      (sink_next (rs_sink s)) (sink_fail (rs_sink s))).
    set (s1 := set_channels (delete n (rs_channels s))
                 (push (EvCall (DeleteChannel (ch_id c)) (Some 0)) (set_sink k1 s))).
    assert (Hstep : (_ <- delete_channel (ch_id c) ;; modify_channels (delete n)) s = (Ok tt, s1)).
    { unfold bind, delete_channel, sink_call, next_fails. rewrite Hf.
      rewrite (Hex c (or_introl eq_refl)). reflexivity. }
    destruct (IH s1) as [s' [Hrun [Hst [Hf' [Hch Hh]]]]].
    + cbn. unfold k1. cbn. exact Hf.
    + intros d Hd. unfold channel_exists. cbn. apply existsb_exists.
      pose proof (Hex d (or_intror Hd)) as Hd'. unfold channel_exists in Hd'.
      apply existsb_exists in Hd' as [x [Hx Hxd]]. exists x. split; [|exact Hxd].
      apply filter_In. split; [exact Hx|]. apply Z.eqb_eq in Hxd. rewrite Hxd.
      destruct (Z.eqb_spec (ch_id d) (ch_id c)) as [He|]; [|done].
      exfalso. apply Hc. apply list_elem_of_In. rewrite <- He. by apply in_map.
    + exact HL.
    + exists s'. cbn [for_each]. unfold bind at 1. rewrite Hstep. split; [exact Hrun|].
      split; [rewrite Hst; reflexivity|]. split; [exact Hf'|]. split.
      * rewrite Hch. cbn. unfold k1. cbn. rewrite List_filter_filter.
        apply List.filter_ext_in. intros x _. cbn.
        rewrite (Z.eqb_sym (ch_id x) (ch_id c)). by destruct (ch_id c =? ch_id x).
      * rewrite Hh. destruct L; cbn; [reflexivity|]. unfold s1. cbn.
        by rewrite delete_delete_eq.
Qed.

Lemma existsb_filter_nil {A : Type} (f : A -> bool) (l : list A) :
  existsb f l = match List.filter f l with [] => false | _ => true end.
Proof.
  induction l as [|x l IH]; cbn; [done|]. by destruct (f x).
Qed.

Lemma remove_one_ok (n : string) (s : RState) :
  sink_fail (rs_sink s) = [] ->
  NoDup (map ch_id (sink_channels (rs_sink s))) ->
  exists s',
    remove_one n s = (Ok tt, s')
    /\ rs_store s' = rs_store s
    /\ sink_fail (rs_sink s') = []
    /\ sink_channels (rs_sink s')
       = List.filter (fun c => negb (in_category_named n c)) (sink_channels (rs_sink s))
    /\ rs_channels s' = if existsb (in_category_named n) (sink_channels (rs_sink s))
                        then delete n (rs_channels s) else rs_channels s.
Proof.
  intros Hf Hnd.
  set (chans := sink_channels (rs_sink s)) in *.
  set (s1 := push (EvCall GuildChannels (Some 0)) (set_sink (rs_sink s) s)).
  assert (Hg : guild_channels s = (Ok chans, s1)).
  { unfold guild_channels, sink_call, next_fails. rewrite Hf. reflexivity. }
  set (L := List.filter (in_category_named n) chans).
  destruct (delete_loop_ok n L s1) as [s' [Hrun [Hst [Hf' [Hch Hh]]]]].
  - exact Hf.
  - intros c Hc. unfold channel_exists. apply existsb_exists. exists c.
    split; [|apply Z.eqb_refl]. apply filter_In in Hc as [Hc _]. exact Hc.
  - by apply NoDup_map_filter.
  - exists s'. unfold remove_one, bind at 1. rewrite Hg. split; [exact Hrun|].
    split; [exact Hst|]. split; [exact Hf'|]. split.
    + rewrite Hch. apply List.filter_ext_in. intros x Hx. f_equal.
      destruct (in_category_named n x) eqn:Hnx.
      * apply existsb_exists. exists x. split; [|apply Z.eqb_refl].
        apply filter_In. by split.
      * apply Bool.not_true_is_false. intros Hex.
        apply existsb_exists in Hex as [d [Hd Hdx]].
        apply filter_In in Hd as [Hd Hnd'].
        apply Z.eqb_eq in Hdx.
        rewrite (NoDup_map_inj ch_id chans d x Hnd Hd Hx Hdx) in Hnd'. congruence.
    + rewrite Hh, (existsb_filter_nil (in_category_named n) chans). fold L.
      by destruct L.
Qed.

Lemma remove_all_ok (R : list string) (s : RState) :
  sink_fail (rs_sink s) = [] ->
  NoDup (map ch_id (sink_channels (rs_sink s))) ->
  exists s',
    for_each R remove_one s = (Ok tt, s')
    /\ rs_store s' = rs_store s
    /\ sink_channels (rs_sink s')
       = List.filter (fun c => negb (existsb (fun n => in_category_named n c) R))
                     (sink_channels (rs_sink s))
    /\ forall k, rs_channels s' !! k
                 = if existsb (String.eqb k) R
                      && existsb (in_category_named k) (sink_channels (rs_sink s))
                   then None else rs_channels s !! k.
Proof.
  revert s. induction R as [|n R IH]; intros s Hf Hnd.
  - exists s. cbn. split; [done|]. split; [done|]. split; [|done].
    generalize (sink_channels (rs_sink s)). clear.
    induction l as [|x l IHl]; cbn; [done|]. by rewrite <- IHl.
  - destruct (remove_one_ok n s Hf Hnd) as [s1 [H1 [Hst1 [Hf1 [Hch1 Hh1]]]]].
    destruct (IH s1 Hf1) as [s' [H' [Hst' [Hch' Hh']]]].
    { rewrite Hch1. by apply NoDup_map_filter. }
    exists s'. cbn [for_each]. unfold bind at 1. rewrite H1. split; [exact H'|].
    split; [congruence|]. split.
    + rewrite Hch', Hch1, List_filter_filter. apply List.filter_ext_in. intros x _.
      cbn. by destruct (in_category_named n x).
    + intros k. rewrite Hh', Hch1. cbn.
      destruct (String.eqb_spec k n) as [-> |Hne].
      * rewrite existsb_filter_self, andb_false_r, Hh1. cbn.
        destruct (existsb (in_category_named n) _); [by rewrite lookup_delete_eq|done].
      * rewrite existsb_filter_other by exact Hne. cbn.
        assert (Hk : rs_channels s1 !! k = rs_channels s !! k).
        { rewrite Hh1. destruct (existsb _ _); [by rewrite lookup_delete_ne|done]. }
        by rewrite Hk.
Qed.

(** C4 (code bug): removal matches the drained entries against channel
    names and never consults the Resource Handle map, while [to_remove]
    holds workload ids and channels are named after workload names. A
    drained entry with no handle still deletes the channel of that name;
    a drained id whose handle points at the channel named after the
    workload deletes nothing and keeps the handle. *)
Lemma C4_removal_ignores_handles :
  In (EvCall (DeleteChannel 5) (Some 0)) (rs_trace (snd (remove_phase locked_state)))
  /\ rs_channels locked_state = ∅
  /\ (let s := mkRState (mkStore ∅ ["4f2a"%string]) {[ "4f2a" := (100, Some 101) ]}
                 (mkSink [mkChannel 100 (Some "/web"%string) (Some CATEGORY)] 102 []) [] in
      rs_channels (snd (remove_phase s)) = {[ "4f2a" := (100, Some 101) ]}
      /\ rs_trace (snd (remove_phase s)) = [EvLock; EvCall GuildChannels (Some 0); EvUnlock]).
Proof.
  split; [vm_compute; tauto|]. split; [reflexivity|]. cbn zeta. split; reflexivity.
Qed.

(** Removal by channel name: when all calls go through, the removal part
    of an iteration empties [to_remove], deletes exactly the channels of
    the target category whose name equals a drained entry, and drops the
    handle keyed by a drained entry exactly when such a channel existed;
    the handle map plays no part in which channels are deleted. *)
Theorem remove_phase_by_channel_name :
  forall s : RState,
    sink_fail (rs_sink s) = [] ->
    NoDup (map ch_id (sink_channels (rs_sink s))) ->
    let R := to_remove (rs_store s) in
    let chans := sink_channels (rs_sink s) in
    match remove_phase s with
    | (Ok _, s') =>
        to_remove (rs_store s') = []
        /\ containers (rs_store s') = containers (rs_store s)
        /\ sink_channels (rs_sink s')
           = List.filter (fun c => negb (existsb (fun n => in_category_named n c) R)) chans
        /\ (forall k, rs_channels s' !! k
                      = if existsb (String.eqb k) R && existsb (in_category_named k) chans
                        then None else rs_channels s !! k)
    | (Err _, _) => False
    end.
Proof.
  intros s Hf Hnd. cbn zeta.
  set (s0 := set_store (mkStore (containers (rs_store s)) []) (push EvLock s)).
  destruct (remove_all_ok (to_remove (rs_store s)) s0) as [s' [Hrun [Hst [Hch Hh]]]];
    [exact Hf|exact Hnd|].
  unfold remove_phase, with_lock, bind at 1, drain_to_remove. fold s0. cbn [fst snd].
  assert (Hs0 : rs_store (push EvLock s) = rs_store s) by reflexivity.
  rewrite Hs0. fold s0. rewrite Hrun. cbn.
  split; [rewrite Hst; reflexivity|]. split; [rewrite Hst; reflexivity|].
  split; [exact Hch|]. exact Hh.
Qed.

(* ------------------------------------------------------------------ *)
(** ** The Resource Handle map *)

Definition not_create (ev : event) : Prop :=
  forall ch mid, ev <> EvCall (CreateMessage ch) (Some mid).

Lemma created_push_other ch tr ev :
  not_create ev -> (created ch (tr ++ [ev]) <-> created ch tr).
Proof.
  intros Hev. unfold created. split; intros [mid Hin]; exists mid.
  - apply in_app_iff in Hin as [Hin|[Heq|[]]]; [exact Hin|].
    exfalso. by apply (Hev ch mid).
  - apply in_app_iff. by left.
Qed.

Lemma inv_push ev s : handles_inv s -> not_create ev -> handles_inv (push ev s).
Proof.
  intros (H1 & H2 & H3 & H4 & H5) Hev. unfold handles_inv, push; cbn.
  split; [exact H1|]. split; [exact H2|]. split.
  - intros ch mid Hin. apply in_app_iff in Hin as [Hin|[Heq|[]]]; [by eapply H3|].
    exfalso. by apply (Hev ch mid).
  - split; [|exact H5]. intros w ch m Hw. destruct (H4 w ch m Hw) as [Ha Hb]. split.
    + intros Hm Hc. apply (Ha Hm). by apply (created_push_other ch _ ev Hev).
    + intros mid Hm. apply (created_push_other ch _ ev Hev). by apply (Hb mid).
Qed.

Lemma inv_set_sink k s :
  handles_inv s ->
  Forall (fun c => ch_id c < sink_next k) (sink_channels k) ->
  sink_next (rs_sink s) <= sink_next k ->
  handles_inv (set_sink k s).
Proof.
  intros (H1 & H2 & H3 & H4 & H5) Hk Hle. unfold handles_inv, set_sink; cbn.
  split; [exact Hk|]. split; [intros w ch m Hw; specialize (H2 w ch m Hw); lia|].
  split; [intros ch mid Hin; specialize (H3 ch mid Hin); lia|].
  split; [exact H4|exact H5].
Qed.

Lemma inv_set_sink_same k s :
  handles_inv s ->
  sink_channels k = sink_channels (rs_sink s) ->
  sink_next k = sink_next (rs_sink s) ->
  handles_inv (set_sink k s).
Proof.
  intros HI Hc Hn. apply inv_set_sink; [exact HI| |lia].
  rewrite Hc, Hn. apply HI.
Qed.

Lemma inv_set_store st s : handles_inv s -> handles_inv (set_store st s).
Proof. done. Qed.

Lemma inv_delete n s : handles_inv s -> handles_inv (set_channels (delete n (rs_channels s)) s).
Proof.
  intros (H1 & H2 & H3 & H4 & H5). unfold handles_inv, set_channels; cbn.
  split; [exact H1|]. split.
  { intros w ch m Hw. apply lookup_delete_Some in Hw as [_ Hw]. by eapply H2. }
  split; [exact H3|]. split.
  { intros w ch m Hw. apply lookup_delete_Some in Hw as [_ Hw]. by eapply H4. }
  intros w w' ch m m' Hw Hw'.
  apply lookup_delete_Some in Hw as [_ Hw]. apply lookup_delete_Some in Hw' as [_ Hw'].
  by eapply H5.
Qed.

Lemma inv_insert_fresh w ch s :
  handles_inv s -> fresh_channel ch s -> rs_channels s !! w = None ->
  handles_inv (set_channels (<[w := (ch, None)]> (rs_channels s)) s).
Proof.
  intros (H1 & H2 & H3 & H4 & H5) (F1 & F2 & F3) Hw0. unfold handles_inv, set_channels; cbn.
  split; [exact H1|]. split.
  { intros v ch' m Hv. apply lookup_insert_Some in Hv as [[<- Heq]|[_ Hv]].
    - injection Heq as <- <-. exact F1.
    - by eapply H2. }
  split; [exact H3|]. split.
  { intros v ch' m Hv. apply lookup_insert_Some in Hv as [[<- Heq]|[_ Hv]].
    - injection Heq as <- <-. split; [intros _; exact F3|intros ? [=]].
    - by eapply H4. }
  intros v v' ch' m m' Hv Hv'.
  apply lookup_insert_Some in Hv as [[Hwv Heq]|[Hne Hv]];
    apply lookup_insert_Some in Hv' as [[Hwv' Heq']|[Hne' Hv']]; [congruence| | |].
  - injection Heq as <- <-. exfalso. by apply (F2 v' (ch, m') Hv').
  - injection Heq' as <- <-. exfalso. by apply (F2 v (ch, m) Hv).
  - by eapply H5.
Qed.

Lemma inv_insert_update w ch m mid s :
  handles_inv s -> rs_channels s !! w = Some (ch, Some m) ->
  handles_inv (set_channels (<[w := (ch, Some mid)]> (rs_channels s)) s).
Proof.
  intros (H1 & H2 & H3 & H4 & H5) Hw0. unfold handles_inv, set_channels; cbn.
  split; [exact H1|]. split.
  { intros v ch' m' Hv. apply lookup_insert_Some in Hv as [[<- Heq]|[_ Hv]].
    - injection Heq as <- <-. by eapply H2.
    - by eapply H2. }
  split; [exact H3|]. split.
  { intros v ch' m' Hv. apply lookup_insert_Some in Hv as [[<- Heq]|[_ Hv]].
    - injection Heq as <- <-. split; [intros [=]|intros _ _].
      exact (proj2 (H4 w ch (Some m) Hw0) m eq_refl).
    - by eapply H4. }
  intros v v' ch' m1 m2 Hv Hv'.
  apply lookup_insert_Some in Hv as [[Hwv Heq]|[Hne Hv]];
    apply lookup_insert_Some in Hv' as [[Hwv' Heq']|[Hne' Hv']]; [congruence| | |].
  - injection Heq as <- <-. rewrite <- Hwv. by apply (H5 w v' ch (Some m) m2).
  - injection Heq' as <- <-. rewrite <- Hwv'. by apply (H5 v w ch m1 (Some m)).
  - by eapply H5.
Qed.

Lemma inv_create_insert w ch mid k s :
  handles_inv s -> rs_channels s !! w = Some (ch, None) ->
  sink_channels k = sink_channels (rs_sink s) ->
  sink_next (rs_sink s) <= sink_next k ->
  handles_inv (set_channels (<[w := (ch, Some mid)]> (rs_channels s))
                 (push (EvCall (CreateMessage ch) (Some mid)) (set_sink k s))).
Proof.
  intros HI Hw0 Hc Hle.
  pose proof (inv_set_sink k s HI) as HI'.
  rewrite Hc in HI'. destruct HI as (H1 & H2 & H3 & H4 & H5).
  destruct (HI' (Forall_impl _ _ _ H1 (fun c Hc' => Z.lt_le_trans _ _ _ Hc' Hle)) Hle)
    as (K1 & K2 & K3 & K4 & K5).
  cbn in K1, K2, K3, K4, K5.
  assert (Hch : ch < sink_next k) by (apply (K2 w ch None Hw0)).
  unfold handles_inv, set_channels, push, set_sink; cbn.
  split; [exact K1|]. split.
  { intros v ch' m' Hv. apply lookup_insert_Some in Hv as [[<- Heq]|[_ Hv]].
    - injection Heq as <- <-. exact Hch.
    - by eapply K2. }
  split.
  { intros ch' mid' Hin. apply in_app_iff in Hin as [Hin|[Heq|[]]]; [by eapply K3|].
    injection Heq as <- _. exact Hch. }
  split.
  { intros v ch' m' Hv. apply lookup_insert_Some in Hv as [[<- Heq]|[Hne Hv]].
    - injection Heq as <- <-. split; [intros [=]|intros _ _].
      exists mid. apply in_app_iff. right. by left.
    - assert (Hne' : ch' <> ch).
      { intros ->. apply Hne. by apply (H5 w v ch None m'). }
      destruct (H4 v ch' m' Hv) as [Ha Hb]. split.
      + intros Hm [mid' Hin]. apply in_app_iff in Hin as [Hin|[Heq|[]]].
        * apply (Ha Hm). by exists mid'.
        * injection Heq as E _. congruence.
      + intros mid' Hm. destruct (Hb mid' Hm) as [x Hx]. exists x.
        apply in_app_iff. by left. }
  intros v v' ch' m1 m2 Hv Hv'.
  apply lookup_insert_Some in Hv as [[Hwv Heq]|[Hne Hv]];
    apply lookup_insert_Some in Hv' as [[Hwv' Heq']|[Hne' Hv']]; [congruence| | |].
  - injection Heq as <- <-. rewrite <- Hwv. by apply (H5 w v' ch None m2).
  - injection Heq' as <- <-. rewrite <- Hwv'. by apply (H5 v w ch m1 None).
  - by eapply H5.
Qed.

Lemma triple_ret {A : Type} (P : RState -> Prop) (a : A) (Q : A -> RState -> Prop) :
  (forall s, P s -> Q a s) -> triple P (ret a) Q.
Proof. intros H s HP. exact (H s HP). Qed.

Lemma triple_bind {A B : Type} (P : RState -> Prop) (m : M A) (f : A -> M B) R Q :
  triple P m R -> (forall a, triple (R a) (f a) Q) -> triple P (bind m f) Q.
Proof.
  intros Hm Hf s HP. specialize (Hm s HP). unfold bind.
  destruct (m s) as [[a|e] s']; [exact (Hf a s' Hm)|exact Hm].
Qed.

Lemma triple_pre {A : Type} (P P' : RState -> Prop) (m : M A) Q :
  (forall s, P s -> P' s) -> triple P' m Q -> triple P m Q.
Proof. intros H Hm s HP. exact (Hm s (H s HP)). Qed.

Lemma triple_for_each {A : Type} (l : list A) (f : A -> M unit) :
  (forall x, triple handles_inv (f x) (fun _ => handles_inv)) ->
  triple handles_inv (for_each l f) (fun _ => handles_inv).
Proof.
  intros Hf. induction l as [|x l IH]; cbn.
  - by apply triple_ret.
  - apply (triple_bind _ _ _ (fun _ => handles_inv)); [apply Hf|]. intros _. exact IH.
Qed.

Lemma triple_with_lock (body : M unit) :
  triple handles_inv body (fun _ => handles_inv) ->
  triple handles_inv (with_lock body) (fun _ => handles_inv).
Proof.
  intros Hb s HI. unfold with_lock.
  specialize (Hb (push EvLock s) (inv_push EvLock s HI ltac:(done))).
  destruct (body (push EvLock s)) as [[a|e] s'];
    (apply inv_push; [exact Hb|done]).
Qed.

Lemma sink_call_cases {A : Type} c ctx (run : Sink -> option (A * Sink)) reply s :
  exists k, sink_channels k = sink_channels (rs_sink s) /\ sink_next k = sink_next (rs_sink s)
  /\ ((exists e, sink_call c ctx run reply s = (Err e, push (EvCall c None) (set_sink k s)))
      \/ (exists a k', run k = Some (a, k')
                       /\ sink_call c ctx run reply s
                          = (Ok a, push (EvCall c (Some (reply a))) (set_sink k' s)))).
Proof.
  unfold sink_call, next_fails.
  destruct (sink_fail (rs_sink s)) as [|b rest].
  - exists (rs_sink s). split; [done|]. split; [done|].
    destruct (run (rs_sink s)) as [[a k']|] eqn:E; [right|left; eexists; reflexivity].
    exists a, k'. by split.
  - exists (mkSink (sink_channels (rs_sink s)) (sink_next (rs_sink s)) rest).
    split; [done|]. split; [done|].
    destruct b; [left; eexists; reflexivity|].
    destruct (run _) as [[a k']|] eqn:E; [right|left; eexists; reflexivity].
    exists a, k'. by split.
Qed.

(** A failed call keeps the invariant. *)
Lemma inv_failed_call c k s :
  handles_inv s -> sink_channels k = sink_channels (rs_sink s) ->
  sink_next k = sink_next (rs_sink s) ->
  handles_inv (push (EvCall c None) (set_sink k s)).
Proof.
  intros HI Hc Hn. apply inv_push; [by apply inv_set_sink_same|done].
Qed.

Lemma triple_guild_channels : triple handles_inv guild_channels (fun _ => handles_inv).
Proof.
  intros s HI. unfold guild_channels.
  destruct (sink_call_cases GuildChannels "Failed to get guild channels"
              (fun k => Some (sink_channels k, k)) (fun _ => 0) s)
    as [k [Hc [Hn [[e ->]|[a [k' [Hrun ->]]]]]]]; [by apply inv_failed_call|].
  injection Hrun as _ <-. apply inv_push; [by apply inv_set_sink_same|done].
Qed.

Lemma triple_delete_channel ch : triple handles_inv (delete_channel ch) (fun _ => handles_inv).
Proof.
  intros s HI. unfold delete_channel.
  match goal with |- context [sink_call ?c ?ctx ?run ?rep] =>
    destruct (sink_call_cases c ctx run rep s)
      as [k [Hc [Hn [[e ->]|[a [k' [Hrun ->]]]]]]]; [by apply inv_failed_call|] end.
  destruct (channel_exists ch k); [|done]. injection Hrun as _ <-.
  apply inv_push; [|done]. apply inv_set_sink; [exact HI| |cbn; lia].
  cbn. apply List.Forall_forall. intros x Hx. apply filter_In in Hx as [Hx _].
  rewrite Hc in Hx. rewrite Hn. destruct HI as [H1 _].
  exact (proj1 (List.Forall_forall _ _) H1 x Hx).
Qed.

Lemma triple_modify_delete n : triple handles_inv (modify_channels (delete n)) (fun _ => handles_inv).
Proof. intros s HI. by apply inv_delete. Qed.

Lemma triple_remove_phase : triple handles_inv remove_phase (fun _ => handles_inv).
Proof.
  unfold remove_phase. apply triple_with_lock.
  apply (triple_bind _ _ _ (fun _ => handles_inv)).
  { intros s HI. exact HI. }
  intros names. apply triple_for_each. intros n. unfold remove_one.
  apply (triple_bind _ _ _ (fun _ => handles_inv)); [apply triple_guild_channels|].
  intros cs. apply triple_for_each. intros c.
  apply (triple_bind _ _ _ (fun _ => handles_inv)); [apply triple_delete_channel|].
  intros _. apply triple_modify_delete.
Qed.

Lemma triple_create_guild_channel w cname :
  triple (fun s => handles_inv s /\ rs_channels s !! w = None) (create_guild_channel cname)
         (fun ch s => handles_inv s /\ fresh_channel ch s /\ rs_channels s !! w = None).
Proof.
  intros s [HI Hw]. unfold create_guild_channel.
  destruct (_ && _); [|exact HI].
  match goal with |- context [sink_call ?c ?ctx ?run ?rep] =>
    destruct (sink_call_cases c ctx run rep s)
      as [k [Hc [Hn [[e ->]|[a [k' [Hrun ->]]]]]]]; [by apply inv_failed_call|] end.
  injection Hrun as <- <-.
  assert (Hnc : not_create (EvCall (CreateGuildChannel cname) (Some (sink_next k)))) by done.
  destruct HI as (H1 & H2 & H3 & H4 & H5).
  unfold handles_inv, fresh_channel, push, set_sink; cbn.
  rewrite !created_push_other by exact Hnc. rewrite Hc, Hn. rewrite Hn in Hnc.
  split; [|split; [|exact Hw]].
  - split; [|split; [|split; [|split]]].
    + apply Forall_app. split.
      * eapply Forall_impl; [exact H1|]. cbn. intros x Hx. lia.
      * constructor; [cbn; lia|constructor].
    + intros w' ch m Hw'. specialize (H2 w' ch m Hw'). lia.
    + intros ch mid Hin. apply in_app_iff in Hin as [Hin|[Heq|[]]]; [|discriminate].
      specialize (H3 ch mid Hin). lia.
    + intros w' ch m Hw'. destruct (H4 w' ch m Hw') as [Ha Hb]. split.
      * intros Hm Hc'. apply (Ha Hm). by apply (created_push_other ch _ _ Hnc).
      * intros mid Hm. apply (created_push_other ch _ _ Hnc). by apply (Hb mid).
    + exact H5.
  - split; [lia|]. split.
    + intros w' [ch m] Hp. cbn. specialize (H2 w' ch m Hp). lia.
    + intros [mid Hin]. specialize (H3 _ mid Hin). lia.
Qed.

Lemma triple_update_one now c : triple handles_inv (update_one now c) (fun _ => handles_inv).
Proof.
  unfold update_one.
  apply (triple_bind _ _ _ (fun h s => handles_inv s /\ h = rs_channels s)).
  { intros s HI. by split. }
  intros h.
  apply (triple_bind _ _ _ (fun chm s => handles_inv s /\ rs_channels s !! id c = Some chm)).
  { destruct (h !! id c) as [p|] eqn:E.
    - apply triple_ret. intros s [HI ->]. by split.
    - apply (triple_bind _ _ _
               (fun ch s => handles_inv s /\ fresh_channel ch s /\ rs_channels s !! id c = None)).
      { apply (triple_pre _ (fun s => handles_inv s /\ rs_channels s !! id c = None));
          [intros s [HI ->]; by split|].
        apply triple_create_guild_channel. }
      intros ch.
      apply (triple_bind _ _ _ (fun _ s => handles_inv s /\ rs_channels s !! id c = Some (ch, None))).
      { intros s (HI & Hf & Hw). cbn. split; [by apply inv_insert_fresh|].
        cbn. by rewrite lookup_insert_eq. }
      intros _. apply triple_ret. intros s Hs. exact Hs. }
  intros chm.
  apply (triple_bind _ _ _ (fun _ s => handles_inv s /\ rs_channels s !! id c = Some chm)).
  { intros s Hs. unfold lift. destruct (embed_container c (logs c) now); [exact Hs|apply Hs]. }
  intros embed s [HI Hw]. destruct chm as [ch m]. unfold bind, check_embed. cbn [fst snd].
  destruct m as [m|]; destruct (embed_valid embed); cbn; [|exact HI| |exact HI].
  - unfold update_message.
    match goal with |- context [sink_call ?c0 ?ctx ?run ?rep s] =>
      destruct (sink_call_cases c0 ctx run rep s)
        as [k [Hc [Hn [[e ->]|[a [k' [Hrun ->]]]]]]]; [by apply inv_failed_call|] end.
    destruct (channel_exists ch k); [|done]. injection Hrun as <- <-. cbn.
    apply (inv_insert_update (id c) ch m m
             (push (EvCall (UpdateMessage ch m) (Some m)) (set_sink k s))).
    + apply inv_push; [by apply inv_set_sink_same|done].
    + exact Hw.
  - unfold create_message.
    match goal with |- context [sink_call ?c0 ?ctx ?run ?rep s] =>
      destruct (sink_call_cases c0 ctx run rep s)
        as [k [Hc [Hn [[e ->]|[a [k' [Hrun ->]]]]]]]; [by apply inv_failed_call|] end.
    destruct (channel_exists ch k); [|done]. injection Hrun as <- <-. cbn.
    apply (inv_create_insert (id c) ch (sink_next k)); [exact HI|exact Hw|exact Hc|].
    cbn. lia.
Qed.

Lemma triple_reconcile_cycle now :
  triple handles_inv (reconcile_cycle now) (fun _ => handles_inv).
Proof.
  unfold reconcile_cycle.
  apply (triple_bind _ _ _ (fun _ => handles_inv)); [apply triple_remove_phase|].
  intros _. unfold update_phase. apply triple_with_lock.
  apply (triple_bind _ _ _ (fun _ => handles_inv)); [intros s HI; exact HI|].
  intros cs. apply triple_for_each. apply triple_update_one.
Qed.

Definition outcome_state (o : outcome RState) : RState :=
  match o with Running s => s | Exited _ s => s end.

Lemma message_update_inv envs s :
  handles_inv s -> handles_inv (outcome_state (message_update envs s)).
Proof.
  revert s. induction envs as [|[st now] envs IH]; intros s HI; cbn; [exact HI|].
  pose proof (triple_reconcile_cycle now (set_store st s) (inv_set_store st s HI)) as H.
  destruct (reconcile_cycle now (set_store st s)) as [[u|e] s']; [by apply IH|exact H].
Qed.

Lemma handles_inv_init (st : Store) (k : Sink) :
  Forall (fun c => ch_id c < sink_next k) (sink_channels k) ->
  handles_inv (reconciler_init st k).
Proof.
  intros Hk. unfold handles_inv, reconciler_init; cbn.
  split; [exact Hk|]. split; [intros w ch m Hw; by rewrite lookup_empty in Hw|].
  split; [intros ch mid []|]. split; intros w; [|intros w' ch m m' Hw];
    [intros ch m Hw|]; by rewrite lookup_empty in Hw.
Qed.

(** C7: over any sequence of Reconciler cycles from the empty handle map
    (and a sink whose channel ids are below the next id it hands out), the
    map holds at most one handle per workload id and no two handles share a
    channel; a handle's message field is [None] exactly while no message was
    created on its channel, and [Some] once one was (also when the loop
    ended in an error). *)
Theorem C7_one_handle_per_workload (st : Store) (k : Sink) (envs : list (Store * Z)) :
  Forall (fun c => ch_id c < sink_next k) (sink_channels k) ->
  let s := outcome_state (message_update envs (reconciler_init st k)) in
  NoDup (map fst (map_to_list (rs_channels s)))
  /\ (forall w w' ch m m', rs_channels s !! w = Some (ch, m) ->
                           rs_channels s !! w' = Some (ch, m') -> w = w')
  /\ (forall w ch m, rs_channels s !! w = Some (ch, m) ->
        (m = None -> ~ created ch (rs_trace s))
        /\ (forall mid, m = Some mid -> created ch (rs_trace s))).
Proof.
  intros Hk. cbn zeta.
  destruct (message_update_inv envs (reconciler_init st k) (handles_inv_init st k Hk))
    as (_ & _ & _ & H4 & H5).
  split; [|split; [exact H5|exact H4]].
  apply NoDup_fst_map_to_list.
Qed.

Lemma C7_witness :
  let st := mkStore {[ "4f2a" := web_container [StdOut [0x61]] ]} [] in
  let k := mkSink [old_channel] 100 [] in
  let envs := [(st, clock); (st, clock)] in
  Forall (fun c => ch_id c < sink_next k) (sink_channels k)
  /\ (let s := outcome_state (message_update envs (reconciler_init st k)) in
      NoDup (map fst (map_to_list (rs_channels s)))
      /\ (forall w w' ch m m', rs_channels s !! w = Some (ch, m) ->
                               rs_channels s !! w' = Some (ch, m') -> w = w')
      /\ (forall w ch m, rs_channels s !! w = Some (ch, m) ->
            (m = None -> ~ created ch (rs_trace s))
            /\ (forall mid, m = Some mid -> created ch (rs_trace s)))).
Proof.
  intros st k envs.
  assert (Hk : Forall (fun c => ch_id c < sink_next k) (sink_channels k)).
  { repeat constructor. }
  split; [exact Hk|]. exact (C7_one_handle_per_workload st k envs Hk).
Defined.

Lemma remove_phase_by_channel_name_witness :
  sink_fail (rs_sink locked_state) = []
  /\ NoDup (map ch_id (sink_channels (rs_sink locked_state)))
  /\ match remove_phase locked_state with
     | (Ok _, s') => to_remove (rs_store s') = [] /\ sink_channels (rs_sink s') = []
     | (Err _, _) => False
     end.
Proof.
  assert (H1 : sink_fail (rs_sink locked_state) = []) by reflexivity.
  assert (H2 : NoDup (map ch_id (sink_channels (rs_sink locked_state)))).
  { cbn. repeat constructor. set_solver. }
  pose proof (remove_phase_by_channel_name locked_state H1 H2) as H. cbn zeta in H.
  split; [exact H1|]. split; [exact H2|].
  destruct (remove_phase locked_state) as [[u|e] s'] eqn:E; [|exact H].
  destruct H as [Ht [_ [Hc _]]]. split; [exact Ht|]. rewrite Hc. vm_compute. reflexivity.
Defined.

(* ================================================================== *)
(** * Further properties of the code *)

(* ------------------------------------------------------------------ *)
(** ** UTF-8 validation *)

Lemma run_utf8_ascii (bs : list Z) (idx : nat) :
  Forall (fun b => b < 0x80) bs -> run_utf8_validation bs idx = None.
Proof.
  revert idx. induction bs as [|b bs IH]; intros idx H; [done|].
  inversion H as [|? ? Hb Hbs]; subst.
  assert (Hw : utf8_char_width b = 1%nat).
  { unfold utf8_char_width. destruct (Z.ltb_spec b 0x80); [done|lia]. }
  cbn [run_utf8_validation]. rewrite Hw. by apply IH.
Qed.

Lemma run_utf8_err_pos (n : nat) : forall bs idx e,
  (List.length bs <= n)%nat ->
  run_utf8_validation bs idx = Some e ->
  (idx <= valid_up_to e)%nat /\ (valid_up_to e < idx + List.length bs)%nat
  /\ run_utf8_validation (firstn (valid_up_to e - idx) bs) idx = None
  /\ (error_len e = None -> (idx + List.length bs <= valid_up_to e + 3)%nat)
  /\ (error_len e = None \/ exists k, error_len e = Some k /\ (1 <= k <= 3)%nat).
Proof.
  induction n as [|n IH]; intros bs idx e Hlen H.
  { destruct bs; [discriminate|cbn in Hlen; lia]. }
  destruct bs as [|b rest]; [discriminate|]. cbn [List.length] in Hlen |- *.
  cbn [run_utf8_validation] in H.
  (* an error found at [idx] itself *)
  assert (Hleaf : forall l, e = mkUtf8Error idx l ->
            (l = None -> (List.length rest <= 2)%nat) ->
            (l = None \/ exists k, l = Some k /\ (1 <= k <= 3)%nat) ->
            (idx <= valid_up_to e)%nat /\ (valid_up_to e < idx + S (List.length rest))%nat
            /\ run_utf8_validation (firstn (valid_up_to e - idx) (b :: rest)) idx = None
            /\ (error_len e = None -> (idx + S (List.length rest) <= valid_up_to e + 3)%nat)
            /\ (error_len e = None \/ exists k, error_len e = Some k /\ (1 <= k <= 3)%nat)).
  { intros l -> Hl Hk. cbn. rewrite Nat.sub_diag. cbn.
    split; [lia|]. split; [lia|]. split; [done|]. split; [|exact Hk].
    intros Hn. specialize (Hl Hn). lia. }
  (* an error found further on, after a valid sequence of [w] bytes *)
  assert (Hstep : forall (w : nat) pre tl, (1 <= w)%nat -> b :: rest = pre ++ tl -> List.length pre = w ->
            (forall l, run_utf8_validation (pre ++ l) idx = run_utf8_validation l (idx + w)) ->
            run_utf8_validation tl (idx + w) = Some e ->
            (idx <= valid_up_to e)%nat /\ (valid_up_to e < idx + S (List.length rest))%nat
            /\ run_utf8_validation (firstn (valid_up_to e - idx) (b :: rest)) idx = None
            /\ (error_len e = None -> (idx + S (List.length rest) <= valid_up_to e + 3)%nat)
            /\ (error_len e = None \/ exists k, error_len e = Some k /\ (1 <= k <= 3)%nat)).
  { intros w pre tl Hw0 Hbs Hw Hrun Htl.
    assert (Hlt : List.length (b :: rest) = (w + List.length tl)%nat)
      by (rewrite Hbs, length_app; lia).
    cbn [List.length] in Hlt.
    destruct (IH tl (idx + w)%nat e ltac:(lia) Htl) as (H1 & H2 & H3 & H4 & H5).
    split; [lia|]. split; [lia|]. split; [|split; [intros Hn; specialize (H4 Hn); lia|exact H5]].
    rewrite Hbs. replace (valid_up_to e - idx)%nat with (w + (valid_up_to e - (idx + w)))%nat by lia.
    rewrite <- Hw, firstn_app_2.
    rewrite Hrun, Hw. exact H3. }
  destruct (utf8_char_width b) as [|[|[|[|[|w]]]]] eqn:W.
  - injection H as <-. apply (Hleaf (Some 1%nat)); [done|done|right; eexists; split; [done|lia]].
  - apply (Hstep 1%nat [b] rest); [lia|done|done| |by rewrite Nat.add_1_r].
    intros l. cbn [app run_utf8_validation]. rewrite W. f_equal. lia.
  - destruct rest as [|c rest'].
    { injection H as <-. apply (Hleaf None); [done|intros _; cbn; lia|by left]. }
    destruct (is_cont c) eqn:C.
    + apply (Hstep 2%nat [b; c] rest'); [lia|done|done| |exact H].
      intros l. cbn [app run_utf8_validation]. rewrite W, C. done.
    + injection H as <-. apply (Hleaf (Some 1%nat)); [done|done|right; eexists; split; [done|lia]].
  - destruct rest as [|c rest'].
    { injection H as <-. apply (Hleaf None); [done|intros _; cbn; lia|by left]. }
    destruct (second_ok3 b c) eqn:C.
    + destruct rest' as [|d rest''].
      { injection H as <-. apply (Hleaf None); [done|intros _; cbn; lia|by left]. }
      destruct (is_cont d) eqn:D.
      * apply (Hstep 3%nat [b; c; d] rest''); [lia|done|done| |exact H].
        intros l. cbn [app run_utf8_validation]. rewrite W, C, D. done.
      * injection H as <-. apply (Hleaf (Some 2%nat)); [done|done|right; eexists; split; [done|lia]].
    + injection H as <-. apply (Hleaf (Some 1%nat)); [done|done|right; eexists; split; [done|lia]].
  - destruct rest as [|c rest'].
    { injection H as <-. apply (Hleaf None); [done|intros _; cbn; lia|by left]. }
    destruct (second_ok4 b c) eqn:C.
    + destruct rest' as [|d rest''].
      { injection H as <-. apply (Hleaf None); [done|intros _; cbn; lia|by left]. }
      destruct (is_cont d) eqn:D.
      * destruct rest'' as [|f rest'''].
        { injection H as <-. apply (Hleaf None); [done|intros _; cbn; lia|by left]. }
        destruct (is_cont f) eqn:F.
        -- apply (Hstep 4%nat [b; c; d; f] rest'''); [lia|done|done| |exact H].
           intros l. cbn [app run_utf8_validation]. rewrite W, C, D, F. done.
        -- injection H as <-. apply (Hleaf (Some 3%nat)); [done|done|right; eexists; split; [done|lia]].
      * injection H as <-. apply (Hleaf (Some 2%nat)); [done|done|right; eexists; split; [done|lia]].
    + injection H as <-. apply (Hleaf (Some 1%nat)); [done|done|right; eexists; split; [done|lia]].
  - injection H as <-. apply (Hleaf (Some 1%nat)); [done|done|right; eexists; split; [done|lia]].
Qed.

(* ------------------------------------------------------------------ *)
(** ** Stripping escapes *)

Ltac forall_bytes :=
  unfold replacement; repeat (constructor; [first [by left | right; lia | lia]|]); constructor.

Lemma strip_go_cons st b r :
  strip_go st (b :: r) = snd (vte_step st b) ++ strip_go (fst (vte_step st b)) r.
Proof. cbn. by destruct (vte_step st b). Qed.

Definition not_partial (st : vte_state) : Prop :=
  match st with GroundUtf8 _ => False | _ => True end.

(** Outside the ground state a step writes nothing or a line feed, and
    never enters a multi-byte sequence. *)
Lemma vte_step_other st b :
  st <> Ground -> not_partial st ->
  (snd (vte_step st b) = [] \/ snd (vte_step st b) = [0x0A])
  /\ not_partial (fst (vte_step st b)).
Proof.
  intros H1 H2. destruct st; try done;
    unfold vte_step; repeat case_match; cbn; unfold execute_out;
    try (destruct (Z.eqb_spec b 0x0A) as [-> |]);
    (split; [first [by left|by right]|done]).
Qed.

Ltac other_step_tac b H :=
  match goal with
  | |- context [vte_step ?s b] => pose proof (vte_step_other s b ltac:(discriminate) I) as H
  end.

Lemma ground_step_ascii b :
  b < 0x80 -> b <> 0x1B -> ground_step b = (Ground, if b <? 0x20 then execute_out b else [b]).
Proof.
  intros Hb He. unfold ground_step.
  destruct (Z.eqb_spec b 0x1B); [lia|]. destruct (Z.ltb_spec b 0x80); [done|lia].
Qed.

Lemma ground_step_partial b acc out :
  ground_step b = (GroundUtf8 acc, out) -> acc = [b] /\ out = [] /\ 0x80 <= b.
Proof.
  unfold ground_step.
  destruct (Z.eqb_spec b 0x1B); [discriminate|].
  destruct (Z.ltb_spec b 0x80); [discriminate|].
  destruct (utf8_char_width b); [discriminate|]. intros [= <- <-]. done.
Qed.

Lemma ground_step_cases b :
  (exists st out, ground_step b = (st, out) /\ not_partial st
     /\ (out = [] \/ out = [0x0A] \/ (out = [b] /\ 0x20 <= b < 0x80) \/ out = replacement))
  \/ (ground_step b = (GroundUtf8 [b], []) /\ 0x80 <= b).
Proof.
  unfold ground_step.
  destruct (Z.eqb_spec b 0x1B).
  { left. do 2 eexists. split; [reflexivity|]. split; [done|]. by left. }
  destruct (Z.ltb_spec b 0x80).
  { left. do 2 eexists. split; [reflexivity|]. split; [done|].
    destruct (Z.ltb_spec b 0x20).
    - unfold execute_out. destruct (Z.eqb_spec b 0x0A); [subst; by right; left|by left].
    - right. right. left. split; [done|lia]. }
  destruct (utf8_char_width b).
  { left. do 2 eexists. split; [reflexivity|]. split; [done|].
    destruct (b <=? 0x9F); [by left|by right; right; right]. }
  right. split; [done|lia].
Qed.

(** The pending bytes of a multi-byte sequence are from 0x80 up. *)
Definition acc_hi (st : vte_state) : Prop :=
  match st with
  | GroundUtf8 acc => Forall (fun x => 0x80 <= x) acc
  | _ => True
  end.

Lemma not_partial_acc_hi st : not_partial st -> acc_hi st.
Proof. by destruct st. Qed.

Lemma utf8_next_ok_hi acc x : utf8_next_ok acc x = true -> 0x80 <= x.
Proof.
  unfold utf8_next_ok, second_ok3, second_ok4, is_cont.
  repeat case_match; rewrite ?andb_true_iff, ?Z.leb_le; lia.
Qed.

Lemma ground_step_out b :
  Forall (fun x => x = 0x0A \/ 0x20 <= x) (snd (ground_step b)) /\ acc_hi (fst (ground_step b)).
Proof.
  destruct (ground_step_cases b) as [(st & out & -> & Hp & Ho)|[-> Hb]]; cbn.
  - split; [|by apply not_partial_acc_hi].
    destruct Ho as [-> |[-> |[[-> Hb]| ->]]].
    + constructor.
    + constructor; [by left|constructor].
    + constructor; [right; lia|constructor].
    + unfold replacement. repeat (constructor; [right; lia|]). constructor.
  - split; [constructor|]. forall_bytes.
Qed.

Lemma vte_step_out st b :
  acc_hi st ->
  Forall (fun x => x = 0x0A \/ 0x20 <= x) (snd (vte_step st b)) /\ acc_hi (fst (vte_step st b)).
Proof.
  intros Hst. destruct st as [|acc| | | | | | | |].
  2:{ cbn [vte_step]. destruct (Z.eqb_spec b 0x1B).
      - cbn. split; [forall_bytes|done].
      - destruct (utf8_next_ok acc b) eqn:Hok.
        + apply utf8_next_ok_hi in Hok. cbn in Hst.
          assert (Ha : Forall (fun x => 0x80 <= x) (acc ++ [b]))
            by (apply Forall_app; split; [exact Hst|forall_bytes]).
          case_match; cbn; [|split; [constructor|exact Ha]].
          split; [|done]. case_match; [constructor|].
          eapply Forall_impl; [exact Ha|]. cbn. intros x Hx. right. lia.
        + pose proof (ground_step_out b) as [Ho Hs].
          destruct (ground_step b) as [st' out]. cbn in *. split; [|exact Hs].
          repeat (constructor; [right; lia|]). exact Ho. }
  1: apply ground_step_out.
  all: other_step_tac b Hos; destruct Hos as [[Ho|Ho] Hs]; rewrite Ho;
    (split; [forall_bytes|by apply not_partial_acc_hi]).
Qed.

Lemma strip_go_out_plain st s :
  acc_hi st -> Forall (fun x => x = 0x0A \/ 0x20 <= x) (strip_go st s).
Proof.
  revert st. induction s as [|b s IH]; intros st Hst; [constructor|].
  rewrite strip_go_cons. destruct (vte_step_out st b Hst) as [Ho Hs].
  apply Forall_app. split; [exact Ho|by apply IH].
Qed.

(** ASCII text stays ASCII. *)
Lemma strip_go_ascii st s :
  not_partial st -> Forall (fun b => b < 0x80) s -> Forall (fun b => b < 0x80) (strip_go st s).
Proof.
  revert st. induction s as [|b s IH]; intros st Hst Hs; [constructor|].
  inversion Hs as [|? ? Hb Hs']; subst.
  rewrite strip_go_cons. apply Forall_app.
  assert (H : (snd (vte_step st b) = [] \/ snd (vte_step st b) = [0x0A] \/ snd (vte_step st b) = [b])
              /\ not_partial (fst (vte_step st b))).
  { destruct st; try done.
    1:{ cbn [vte_step]. destruct (Z.eqb_spec b 0x1B) as [-> |Hne]; [cbn; split; [by left|done]|].
      rewrite (ground_step_ascii b Hb Hne). cbn. split; [|done].
      destruct (b <? 0x20); [|by right; right].
      unfold execute_out. destruct (Z.eqb_spec b 0x0A); [subst; by right; left|by left]. }
    all: other_step_tac b Hos; destruct Hos as [[Ho|Ho] Hn];
        (split; [rewrite Ho; auto|exact Hn]). }
  destruct H as [Ho Hn]. split; [|by apply IH].
  destruct Ho as [-> |[-> | ->]]; forall_bytes.
Qed.

(** Newlines and printable ASCII go through unchanged. *)
Lemma strip_go_plain_ascii s :
  Forall (fun b => b = 0x0A \/ 0x20 <= b < 0x80) s -> strip_go Ground s = s.
Proof.
  induction s as [|b s IH]; intros H; [done|].
  inversion H as [|? ? Hb Hs]; subst. rewrite strip_go_cons. cbn [vte_step].
  rewrite ground_step_ascii by lia. cbn.
  destruct Hb as [-> |Hb]; [cbn; by rewrite IH|].
  destruct (Z.ltb_spec b 0x20); [lia|]. cbn. by rewrite IH.
Qed.

(** A piece of output that the ground state writes back unchanged, in
    front of any input. *)
Definition unit_ok (u : list Z) : Prop :=
  forall r, strip_go Ground (u ++ r) = u ++ strip_go Ground r.

(** Bytes after which the ground state waits in [GroundUtf8 acc]. *)
Definition partial_ok (acc : list Z) : Prop :=
  forall r, strip_go Ground (acc ++ r) = strip_go (GroundUtf8 acc) r.

Definition step_inv (st : vte_state) : Prop :=
  match st with GroundUtf8 acc => partial_ok acc | _ => True end.

Definition out_ok (out : list Z) : Prop :=
  exists us, out = List.concat us /\ Forall unit_ok us.

Lemma unit_ok_replacement : unit_ok replacement.
Proof. intros r. reflexivity. Qed.

Lemma unit_ok_nl : unit_ok [0x0A].
Proof. intros r. reflexivity. Qed.

Lemma unit_ok_printable b : 0x20 <= b < 0x80 -> unit_ok [b].
Proof.
  intros Hb r. cbn [app]. rewrite strip_go_cons. cbn [vte_step].
  rewrite ground_step_ascii by lia. destruct (Z.ltb_spec b 0x20); [lia|]. done.
Qed.

Lemma out_ok_nil : out_ok [].
Proof. by exists []. Qed.

Lemma out_ok_unit u : unit_ok u -> out_ok u.
Proof. intros H. exists [u]. cbn. rewrite app_nil_r. by repeat constructor. Qed.

Lemma out_ok_app a b : out_ok a -> out_ok b -> out_ok (a ++ b).
Proof.
  intros [us [-> Hu]] [vs [-> Hv]]. exists (us ++ vs).
  rewrite concat_app. split; [done|]. by apply Forall_app.
Qed.

Lemma ground_step_units b :
  out_ok (snd (ground_step b)) /\ step_inv (fst (ground_step b)).
Proof.
  destruct (ground_step_cases b) as [(st & out & -> & Hp & Ho)|[E Hb]].
  - cbn. split; [|by destruct st].
    destruct Ho as [-> |[-> |[[-> Hb]| ->]]].
    + apply out_ok_nil.
    + apply out_ok_unit, unit_ok_nl.
    + by apply out_ok_unit, unit_ok_printable.
    + apply out_ok_unit, unit_ok_replacement.
  - rewrite E. cbn. split; [apply out_ok_nil|].
    intros r. cbn [app]. rewrite strip_go_cons. cbn [vte_step]. by rewrite E.
Qed.

Lemma vte_step_units st b :
  step_inv st -> out_ok (snd (vte_step st b)) /\ step_inv (fst (vte_step st b)).
Proof.
  intros Hst. destruct st as [|acc| | | | | | | |].
  2:{ cbn in Hst. destruct (vte_step (GroundUtf8 acc) b) as [st' out] eqn:Hs.
      pose proof Hs as Hs'. cbn [vte_step] in Hs'. cbn [fst snd].
      destruct (Z.eqb_spec b 0x1B).
      - injection Hs' as <- <-. split; [apply out_ok_unit, unit_ok_replacement|done].
      - destruct (utf8_next_ok acc b).
        + destruct (Nat.eqb _ _).
          * injection Hs' as <- <-. split; [|done].
            destruct (is_c1 (acc ++ [b])); [apply out_ok_nil|].
            apply out_ok_unit. intros r. rewrite <- app_assoc. cbn [app].
            rewrite Hst, strip_go_cons, Hs. done.
          * injection Hs' as <- <-. split; [apply out_ok_nil|].
            intros r. rewrite <- app_assoc. cbn [app]. rewrite Hst, strip_go_cons, Hs. done.
        + pose proof (ground_step_units b) as [Ho Hi].
          destruct (ground_step b) as [st'' out'']. injection Hs' as <- <-.
          split; [|exact Hi]. apply (out_ok_app replacement); [apply out_ok_unit, unit_ok_replacement|exact Ho]. }
  1: apply ground_step_units.
  all: other_step_tac b Hos; destruct Hos as [[Ho|Ho] Hs]; rewrite Ho;
    (split; [first [apply out_ok_nil|apply out_ok_unit, unit_ok_nl]|]);
    destruct (fst (vte_step _ b)); done.
Qed.

Lemma strip_go_units st s : step_inv st -> out_ok (strip_go st s).
Proof.
  revert st. induction s as [|b s IH]; intros st Hst; [apply out_ok_nil|].
  rewrite strip_go_cons. destruct (vte_step_units st b Hst) as [Ho Hs].
  apply out_ok_app; [exact Ho|by apply IH].
Qed.

Lemma strip_units_fixed us : Forall unit_ok us -> strip_go Ground (List.concat us) = List.concat us.
Proof.
  induction us as [|u us IH]; intros H; [done|].
  inversion H as [|? ? Hu Hus]; subst. cbn. rewrite Hu. by rewrite IH.
Qed.

(* ------------------------------------------------------------------ *)
(** ** The log tail and the embed *)

Lemma log_tail_ok_spec s t :
  log_tail s = Ok t ->
  (exists p, s = p ++ t) /\ List.length t = Nat.min (List.length s) 3900.
Proof.
  unfold log_tail. destruct (is_char_boundary _ _); [|discriminate]. intros [= <-].
  split.
  - eexists. symmetry. apply take_drop.
  - rewrite length_drop. lia.
Qed.

Lemma log_tail_ascii s :
  Forall (fun b => b < 0x80) s -> exists t, log_tail s = Ok t.
Proof.
  intros H. unfold log_tail.
  set (start := Z.to_nat (Z.max (Z.of_nat (List.length s) - 3900) 0)).
  assert (Hb : is_char_boundary s start = true).
  { unfold is_char_boundary. destruct start as [|k] eqn:Hk; [done|].
    destruct (s !! S k) as [b|] eqn:Hl.
    - apply (List.Forall_forall (fun b => b < 0x80) s) with (x := b) in H.
      + unfold is_cont. destruct (Z.leb_spec 0x80 b); [lia|done].
      + apply list_elem_of_In. by eapply list_elem_of_lookup_2.
    - apply lookup_ge_None in Hl. unfold start in Hk. lia. }
  rewrite Hb. by eexists.
Qed.

Lemma char_count_app a b : char_count (a ++ b) = (char_count a + char_count b)%nat.
Proof. unfold char_count. by rewrite filter_app, length_app. Qed.

Lemma char_count_le a : (char_count a <= List.length a)%nat.
Proof.
  unfold char_count. apply length_filter.
Qed.

(* ------------------------------------------------------------------ *)
(** ** Monad reasoning for the Reconciler *)

Lemma bind_ok {A B : Type} (m : M A) (f : A -> M B) s a s1 :
  m s = (Ok a, s1) -> bind m f s = f a s1.
Proof. intros H. unfold bind. by rewrite H. Qed.

Lemma bind_err {A B : Type} (m : M A) (f : A -> M B) s e s1 :
  m s = (Err e, s1) -> bind m f s = (Err e, s1).
Proof. intros H. unfold bind. by rewrite H. Qed.

Lemma bind_ok_inv {A B : Type} (m : M A) (f : A -> M B) s b s2 :
  bind m f s = (Ok b, s2) -> exists a s1, m s = (Ok a, s1) /\ f a s1 = (Ok b, s2).
Proof.
  unfold bind. destruct (m s) as [[a|e] s1]; [|discriminate]. intros H. by exists a, s1.
Qed.

Lemma keeps_store_bind {A B : Type} (m : M A) (f : A -> M B) :
  keeps_store m -> (forall a, keeps_store (f a)) -> keeps_store (bind m f).
Proof.
  intros Hm Hf s. unfold bind. specialize (Hm s).
  destruct (m s) as [[a|e] s1]; cbn in *; [by rewrite Hf|exact Hm].
Qed.

Lemma keeps_store_ret {A : Type} (a : A) : keeps_store (ret a).
Proof. done. Qed.

Lemma keeps_store_throw {A : Type} e : keeps_store (@throw A e).
Proof. done. Qed.

Lemma keeps_store_lift {A : Type} (r : result A Error) : keeps_store (lift r).
Proof. done. Qed.

Lemma keeps_store_get_channels : keeps_store get_channels.
Proof. done. Qed.

Lemma keeps_store_modify_channels f : keeps_store (modify_channels f).
Proof. done. Qed.

Lemma keeps_store_snapshot_values : keeps_store snapshot_values.
Proof. done. Qed.

Lemma keeps_store_sink_call {A : Type} c ctx (run : Sink -> option (A * Sink)) reply :
  keeps_store (sink_call c ctx run reply).
Proof.
  intros s. destruct (sink_call_cases c ctx run reply s)
    as [k [_ [_ [[e ->]|[a [k' [_ ->]]]]]]]; reflexivity.
Qed.

Lemma keeps_store_for_each {A : Type} (l : list A) (f : A -> M unit) :
  (forall x, keeps_store (f x)) -> keeps_store (for_each l f).
Proof.
  intros Hf. induction l as [|x l IH]; cbn; [apply keeps_store_ret|].
  apply keeps_store_bind; [apply Hf|intros _; exact IH].
Qed.

Lemma keeps_store_with_lock {A : Type} (body : M A) :
  keeps_store body -> keeps_store (with_lock body).
Proof.
  intros Hb s. unfold with_lock. specialize (Hb (push EvLock s)).
  destruct (body (push EvLock s)) as [r s1]. exact Hb.
Qed.

Lemma keeps_store_check_embed e : keeps_store (check_embed e).
Proof. unfold check_embed. by destruct (embed_valid e). Qed.

Lemma keeps_store_create_guild_channel n : keeps_store (create_guild_channel n).
Proof.
  unfold create_guild_channel. case_match; [apply keeps_store_sink_call|apply keeps_store_throw].
Qed.

Create HintDb keeps_db.
#[local] Hint Resolve keeps_store_ret keeps_store_throw keeps_store_lift keeps_store_get_channels
  keeps_store_modify_channels keeps_store_snapshot_values keeps_store_sink_call
  keeps_store_check_embed keeps_store_create_guild_channel : keeps_db.

Ltac solve_keeps :=
  repeat match goal with
  | |- keeps_store (bind _ _) => apply keeps_store_bind; [|intros ?]
  | |- keeps_store (for_each _ _) => apply keeps_store_for_each; intros ?
  | |- keeps_store (match ?x with _ => _ end) => destruct x
  | |- keeps_store _ => solve [auto with keeps_db]
  end.

Lemma keeps_store_update_one now c : keeps_store (update_one now c).
Proof. unfold update_one, create_message, update_message. solve_keeps. Qed.

Lemma keeps_store_update_phase now : keeps_store (update_phase now).
Proof.
  unfold update_phase. apply keeps_store_with_lock. solve_keeps. apply keeps_store_update_one.
Qed.

Lemma remove_phase_store s :
  rs_store (snd (remove_phase s)) = mkStore (containers (rs_store s)) [].
Proof.
  unfold remove_phase, with_lock, bind at 1, drain_to_remove. cbn.
  set (s1 := set_store _ _).
  assert (K : keeps_store (for_each (to_remove (rs_store s)) remove_one)).
  { unfold remove_one, guild_channels, delete_channel. solve_keeps. }
  specialize (K s1). destruct (for_each _ remove_one s1) as [r s2]. cbn in *. by rewrite K.
Qed.


Lemma nf_ret {A : Type} (a : A) : ok_no_failed_call (ret a).
Proof. intros s b s' [= _ <-]. exists []. by rewrite app_nil_r. Qed.

Lemma nf_throw {A : Type} e : ok_no_failed_call (@throw A e).
Proof. by intros s b s' H. Qed.

Lemma nf_lift {A : Type} (r : result A Error) : ok_no_failed_call (lift r).
Proof. intros s b s' [= _ <-]. exists []. by rewrite app_nil_r. Qed.

Lemma nf_get_channels : ok_no_failed_call get_channels.
Proof. intros s b s' [= _ <-]. exists []. by rewrite app_nil_r. Qed.

Lemma nf_modify_channels f : ok_no_failed_call (modify_channels f).
Proof. intros s b s' [= _ <-]. exists []. by rewrite app_nil_r. Qed.

Lemma nf_snapshot_values : ok_no_failed_call snapshot_values.
Proof. intros s b s' [= _ <-]. exists []. by rewrite app_nil_r. Qed.

Lemma nf_drain_to_remove : ok_no_failed_call drain_to_remove.
Proof. intros s b s' [= _ <-]. exists []. by rewrite app_nil_r. Qed.

Lemma nf_sink_call {A : Type} c ctx (run : Sink -> option (A * Sink)) reply :
  ok_no_failed_call (sink_call c ctx run reply).
Proof.
  intros s a s'. destruct (sink_call_cases c ctx run reply s)
    as [k [_ [_ [[e ->]|[a' [k' [_ ->]]]]]]]; [discriminate|].
  intros [= _ <-]. eexists. split; [reflexivity|]. by repeat constructor.
Qed.



Lemma nf_check_embed e : ok_no_failed_call (check_embed e).
Proof. unfold check_embed. destruct (embed_valid e); [apply nf_ret|apply nf_throw]. Qed.

Lemma nf_create_guild_channel n : ok_no_failed_call (create_guild_channel n).
Proof.
  unfold create_guild_channel. case_match; [apply nf_sink_call|apply nf_throw].
Qed.

Create HintDb nf_db.
#[local] Hint Resolve nf_ret nf_throw nf_lift nf_get_channels nf_modify_channels
  nf_snapshot_values nf_drain_to_remove nf_sink_call nf_check_embed
  nf_create_guild_channel : nf_db.





Lemma sink_call_ok_channels {A : Type} c ctx (run : Sink -> option (A * Sink)) reply s a s1 :
  sink_call c ctx run reply s = (Ok a, s1) -> rs_channels s1 = rs_channels s.
Proof.
  destruct (sink_call_cases c ctx run reply s)
    as [k [_ [_ [[e ->]|[a' [k' [_ ->]]]]]]]; [discriminate|].
  by intros [= _ <-].
Qed.

Lemma sink_call_trace {A : Type} c ctx (run : Sink -> option (A * Sink)) reply s :
  exists r, rs_trace (snd (sink_call c ctx run reply s)) = rs_trace s ++ [EvCall c r].
Proof.
  destruct (sink_call_cases c ctx run reply s)
    as [k [_ [_ [[e ->]|[a' [k' [_ ->]]]]]]]; eexists; reflexivity.
Qed.

(** A successful [update_one] records a channel and a message for the
    workload, keeping the channel it already had. *)
Lemma update_one_ok now c s u s' :
  update_one now c s = (Ok u, s') ->
  exists ch mid, rs_channels s' = <[id c := (ch, Some mid)]> (rs_channels s)
    /\ (forall p, rs_channels s !! id c = Some p -> ch = fst p).
Proof.
  unfold update_one. intros H.
  apply bind_ok_inv in H as (h & s1 & H1 & H). injection H1 as <- <-.
  apply bind_ok_inv in H as (chm & s2 & H2 & H).
  apply bind_ok_inv in H as (emb & s3 & H3 & H). unfold lift in H3.
  destruct (embed_container c (logs c) now); [|discriminate]. injection H3 as _ <-.
  apply bind_ok_inv in H as (mid & s4 & H4 & H).
  unfold modify_channels in H. injection H as _ <-. cbn.
  assert (H4' : rs_channels s4 = rs_channels s2).
  { destruct (snd chm); apply bind_ok_inv in H4 as (x & s5 & H5 & H6);
      unfold check_embed in H5; destruct (embed_valid emb); try discriminate;
      injection H5 as _ <-; unfold update_message, create_message in H6;
      eapply sink_call_ok_channels; exact H6. }
  rewrite H4'.
  destruct (rs_channels s !! id c) as [p|] eqn:Hk.
  - injection H2 as <- <-. exists (fst p), mid. split; [done|]. congruence.
  - apply bind_ok_inv in H2 as (ch & s5 & H5 & H2).
    apply bind_ok_inv in H2 as (u' & s6 & H6 & H7).
    injection H6 as _ <-. injection H7 as <- <-. cbn.
    assert (Hc : rs_channels s5 = rs_channels s).
    { unfold create_guild_channel in H5. cbv zeta in H5. destruct (_ && _); [|discriminate].
      eapply sink_call_ok_channels; exact H5. }
    exists ch, mid. split; [by rewrite insert_insert_eq, Hc|congruence].
Qed.

Lemma has_message_after_update_one now c s u s' k :
  update_one now c s = (Ok u, s') -> has_message k s -> has_message k s'.
Proof.
  intros H [ch0 [m0 Hk]]. destruct (update_one_ok _ _ _ _ _ H) as (ch & mid & Hs & _).
  unfold has_message. rewrite Hs.
  destruct (decide (id c = k)) as [-> |Hne].
  - exists ch, mid. by rewrite lookup_insert_eq.
  - exists ch0, m0. by rewrite lookup_insert_ne.
Qed.

Lemma has_message_updated now c s u s' :
  update_one now c s = (Ok u, s') -> has_message (id c) s'.
Proof.
  intros H. destruct (update_one_ok _ _ _ _ _ H) as (ch & mid & Hs & _).
  exists ch, mid. by rewrite Hs, lookup_insert_eq.
Qed.

Lemma for_each_update_ok now cs s u s' :
  for_each cs (update_one now) s = (Ok u, s') ->
  (forall k, has_message k s -> has_message k s')
  /\ (forall c, In c cs -> has_message (id c) s').
Proof.
  revert s. induction cs as [|c cs IH]; intros s H; cbn in H.
  - injection H as _ <-. split; [done|]. intros c [].
  - apply bind_ok_inv in H as (x & s1 & H1 & H).
    destruct (IH _ H) as [Hk Hin]. split.
    + intros k Hm. apply Hk. eapply has_message_after_update_one; [exact H1|exact Hm].
    + intros c' [<-|Hc]; [|by apply Hin].
      apply Hk. eapply has_message_updated. exact H1.
Qed.

Lemma has_message_push ev k s : has_message k (push ev s) <-> has_message k s.
Proof. done. Qed.

Lemma in_snapshot s k c :
  containers (rs_store s) !! k = Some c ->
  In c (map snd (map_to_list (containers (rs_store s)))).
Proof.
  intros H. apply in_map_iff. exists (k, c). split; [done|].
  by apply list_elem_of_In, elem_of_map_to_list.
Qed.


Lemma update_one_steady now c s :
  has_message (id c) s ->
  exists t, rs_trace (snd (update_one now c s)) = rs_trace s ++ t
    /\ Forall update_call_event t.
Proof.
  intros (ch & m & Hk). unfold update_one.
  rewrite (bind_ok get_channels _ s (rs_channels s) s eq_refl). cbv beta.
  rewrite Hk. rewrite (bind_ok (ret (ch, Some m)) _ s (ch, Some m) s eq_refl). cbv beta.
  unfold lift. destruct (embed_container c (logs c) now) as [emb|e] eqn:He.
  2:{ rewrite (bind_err (fun s0 => (Err e, s0)) _ s e s eq_refl).
      exists []. split; [by rewrite app_nil_r|constructor]. }
  rewrite (bind_ok (fun s0 => (Ok emb, s0)) _ s emb s eq_refl). cbv beta. cbn [snd fst].
  unfold check_embed. destruct (embed_valid emb).
  2:{ exists []. split; [|constructor]. unfold bind, throw. cbn. by rewrite app_nil_r. }
  unfold bind at 1. rewrite (bind_ok (ret tt) _ s tt s eq_refl). cbv beta.
  unfold update_message.
  destruct (sink_call_cases (UpdateMessage ch m) "Failed to send message"
              (fun k => if channel_exists ch k then Some (m, k) else None) (fun m0 => m0) s)
    as [k [_ [_ [[e Hs]|[a [k' [_ Hs]]]]]]]; rewrite Hs.
  - exists [EvCall (UpdateMessage ch m) None]. split; [reflexivity|].
    constructor; [by do 3 eexists|constructor].
  - exists [EvCall (UpdateMessage ch m) (Some a)]. split; [reflexivity|].
    constructor; [by do 3 eexists|constructor].
Qed.

Lemma for_each_steady now cs s :
  (forall c, In c cs -> has_message (id c) s) ->
  exists t, rs_trace (snd (for_each cs (update_one now) s)) = rs_trace s ++ t
    /\ Forall update_call_event t.
Proof.
  revert s. induction cs as [|c cs IH]; intros s H; cbn.
  - exists []. split; [by rewrite app_nil_r|constructor].
  - destruct (update_one_steady now c s (H c (or_introl eq_refl))) as (t1 & Ht1 & Hf1).
    destruct (update_one now c s) as [[u|e] s1] eqn:E; cbn in Ht1.
    + rewrite (bind_ok _ _ s u s1 E).
      destruct (IH s1) as (t2 & Ht2 & Hf2).
      { intros c' Hc'. eapply has_message_after_update_one; [exact E|by apply H; right]. }
      exists (t1 ++ t2). rewrite Ht2, Ht1, app_assoc. split; [done|]. by apply Forall_app.
    + rewrite (bind_err _ _ s e s1 E). by exists t1.
Qed.

(* ------------------------------------------------------------------ *)
(** ** [docker::containers] and the Poller *)

Lemma dcontainer_of_id c d : dcontainer_of c = Some d -> cs_id c = Some (d_id d).
Proof.
  unfold dcontainer_of. destruct (summary_fields c) as [[|? [|? [|? [|? [|? [|]]]]]]|] eqn:Hf;
    try discriminate.
  intros [= <-]. cbn. eapply summary_fields_id. exact Hf.
Qed.

Lemma dcontainer_of_wf c : is_Some (dcontainer_of c) <-> well_formed c = true.
Proof.
  unfold dcontainer_of, well_formed.
  destruct (summary_fields c) as [[|? [|? [|? [|? [|? [|]]]]]]|];
    split; intros H; try done; by inversion H.
Qed.

Lemma containers_filter_map_ids cs i :
  In i (map d_id (fst (containers_filter_map cs)))
  <-> exists c, In c cs /\ well_formed c = true /\ cs_id c = Some i.
Proof.
  induction cs as [|c cs IH]; cbn.
  - split; [done|]. by intros (? & [] & _).
  - destruct (containers_filter_map cs) as [out evs]. cbn in IH.
    destruct (dcontainer_of c) as [d|] eqn:Hd; cbn.
    + rewrite IH. split.
      * intros [<-|(c' & Hc' & Hw & Hi)]; [|exists c'; by split; [right|]].
        exists c. split; [by left|]. split; [apply dcontainer_of_wf; by rewrite Hd|].
        by apply dcontainer_of_id.
      * intros (c' & [<-|Hc'] & Hw & Hi); [left|right; by exists c'].
        apply dcontainer_of_id in Hd. congruence.
    + rewrite IH. split.
      * intros (c' & Hc' & Hw & Hi). exists c'. by split; [right|].
      * intros (c' & [<-|Hc'] & Hw & Hi); [|by exists c'].
        apply dcontainer_of_wf in Hw. rewrite Hd in Hw. by destruct Hw.
Qed.

Lemma poll_entry_keeps acc e i :
  is_Some (snd acc !! i) -> is_Some (snd (poll_entry acc e) !! i).
Proof.
  intros H. pose proof (poll_entry_lookup acc e i) as Hs.
  destruct (well_formed (fst e) && has_id i (fst e)).
  - destruct Hs as [c0 [_ ->]]. by eexists.
  - by rewrite Hs.
Qed.

Lemma foldl_poll_keeps l acc i :
  is_Some (snd acc !! i) -> is_Some (snd (foldl poll_entry acc l) !! i).
Proof.
  revert acc. induction l as [|e l IH]; intros acc H; cbn; [done|].
  apply IH. by apply poll_entry_keeps.
Qed.

Lemma foldl_poll_adds l acc i e :
  In e l -> well_formed (fst e) = true -> cs_id (fst e) = Some i ->
  is_Some (snd (foldl poll_entry acc l) !! i).
Proof.
  revert acc. induction l as [|e' l IH]; intros acc Hin Hw Hi; [done|].
  destruct Hin as [-> |Hin]; cbn; [|by apply IH].
  apply foldl_poll_keeps.
  pose proof (poll_entry_lookup acc e i) as Hs.
  assert (Hh : has_id i (fst e) = true) by (unfold has_id; rewrite Hi; apply String.eqb_refl).
  rewrite Hw, Hh in Hs. cbn in Hs. destruct Hs as [c0 [_ ->]]. by eexists.
Qed.

(* ------------------------------------------------------------------ *)
(** ** Properties of the text pipeline *)

(** [String::from_utf8] accepts every ASCII byte string and returns it
    unchanged. *)
Theorem from_utf8_ascii_ok (bs : list Z) :
  Forall (fun b => b < 0x80) bs -> from_utf8 bs = Ok bs.
Proof. intros H. unfold from_utf8. by rewrite run_utf8_ascii. Qed.

Lemma from_utf8_ascii_ok_witness :
  Forall (fun b => b < 0x80) (bytes_of_string "nginx")
  /\ from_utf8 (bytes_of_string "nginx") = Ok (bytes_of_string "nginx").
Proof.
  assert (H : Forall (fun b => b < 0x80) (bytes_of_string "nginx"))
    by (repeat constructor; cbn; lia).
  split; [exact H|]. apply (from_utf8_ascii_ok _ H).
Defined.

(** When [String::from_utf8] fails, the [Utf8Error] points inside the
    input, the bytes before [valid_up_to] are valid UTF-8, an error
    without [error_len] (truncated input) leaves at most 3 bytes after
    [valid_up_to], and an [error_len] is 1, 2 or 3. *)
Theorem from_utf8_error_position (bs : list Z) (e : Utf8Error) :
  from_utf8 bs = Err e ->
  (valid_up_to e < List.length bs)%nat
  /\ from_utf8 (firstn (valid_up_to e) bs) = Ok (firstn (valid_up_to e) bs)
  /\ (error_len e = None -> (List.length bs <= valid_up_to e + 3)%nat)
  /\ (error_len e = None \/ exists k, error_len e = Some k /\ (1 <= k <= 3)%nat).
Proof.
  unfold from_utf8. destruct (run_utf8_validation bs 0) as [e'|] eqn:Hr; [|discriminate].
  intros [= <-].
  destruct (run_utf8_err_pos (List.length bs) bs 0 e' ltac:(lia) Hr)
    as (_ & H1 & H2 & H3 & H4).
  rewrite Nat.sub_0_r in H2. split; [lia|]. split; [by rewrite H2|]. split; [|exact H4].
  intros Hn. specialize (H3 Hn). lia.
Qed.

Lemma from_utf8_error_position_witness :
  from_utf8 [0x61; 0xFF] = Err (mkUtf8Error 1 (Some 1%nat))
  /\ (1 < 2)%nat /\ from_utf8 [0x61] = Ok [0x61].
Proof.
  assert (H : from_utf8 [0x61; 0xFF] = Err (mkUtf8Error 1 (Some 1%nat))) by reflexivity.
  destruct (from_utf8_error_position _ _ H) as (H1 & H2 & _).
  split; [exact H|]. split; [exact H1|exact H2].
Defined.

(** What [strip_str] returns consists of newlines and bytes from 0x20 up:
    tabs, carriage returns, escape sequences and the other C0 controls
    never survive (DEL, 0x7F, is printed and may). *)
Theorem strip_str_output_plain (s : list Z) :
  Forall (fun b => b = 0x0A \/ 0x20 <= b) (strip_str s).
Proof. by apply strip_go_out_plain. Qed.

(** ASCII text made of newlines and printable characters (0x20..0x7F)
    goes through [strip_str] unchanged. *)
Theorem strip_str_plain_unchanged (s : list Z) :
  Forall (fun b => b = 0x0A \/ 0x20 <= b < 0x80) s -> strip_str s = s.
Proof. apply strip_go_plain_ascii. Qed.

Lemma strip_str_plain_unchanged_witness :
  strip_str (bytes_of_string "GET / 200") = bytes_of_string "GET / 200".
Proof.
  apply strip_str_plain_unchanged. repeat (constructor; [right; cbn; lia|]). constructor.
Defined.

(** [strip_str] is idempotent. *)
Theorem strip_str_idempotent (s : list Z) : strip_str (strip_str s) = strip_str s.
Proof.
  unfold strip_str. destruct (strip_go_units Ground s I) as [us [Hs Hu]].
  rewrite Hs. by apply strip_units_fixed.
Qed.

(** The tail of the formatted logs: it is the last [min(len, 3900)]
    bytes of the text; the slice panics exactly when the text is longer
    than 3900 bytes and the cut falls on a UTF-8 continuation byte. *)
Theorem log_tail_last_3900 (s : list Z) :
  match log_tail s with
  | Ok t => (exists p, s = p ++ t) /\ List.length t = Nat.min (List.length s) 3900
            /\ ((List.length s <= 3900)%nat
                \/ exists b, s !! (List.length s - 3900)%nat = Some b /\ is_cont b = false)
  | Err e => e = Panic "byte index is not a char boundary"
             /\ (3900 < List.length s)%nat
             /\ exists b, s !! (List.length s - 3900)%nat = Some b /\ is_cont b = true
  end.
Proof.
  destruct (log_tail s) as [t|e] eqn:H.
  - destruct (log_tail_ok_spec s t H) as [H1 H2]. split; [exact H1|]. split; [exact H2|].
    unfold log_tail in H.
    set (start := Z.to_nat (Z.max (Z.of_nat (List.length s) - 3900) 0)) in H.
    destruct (is_char_boundary s start) eqn:Hb; [|discriminate].
    unfold is_char_boundary in Hb. destruct start as [|k] eqn:Hk.
    + left. unfold start in Hk. lia.
    + right. assert (Hst : (List.length s - 3900)%nat = S k) by (unfold start in Hk; lia).
      rewrite Hst. destruct (s !! S k) as [b|] eqn:Hl.
      * exists b. split; [done|]. by destruct (is_cont b).
      * apply Nat.eqb_eq in Hb. lia.
  - unfold log_tail in H.
    set (start := Z.to_nat (Z.max (Z.of_nat (List.length s) - 3900) 0)) in H.
    destruct (is_char_boundary s start) eqn:Hb; [discriminate|]. injection H as <-.
    unfold is_char_boundary in Hb. destruct start as [|k] eqn:Hk; [discriminate|].
    assert (Hlen : (3900 < List.length s)%nat) by (unfold start in Hk; lia).
    assert (Hst : (List.length s - 3900)%nat = S k) by (unfold start in Hk; lia).
    split; [done|]. split; [exact Hlen|]. rewrite Hst.
    destruct (s !! S k) as [b|] eqn:Hl.
    + exists b. split; [done|]. by destruct (is_cont b).
    + apply lookup_ge_None in Hl. lia.
Qed.

Lemma ascii_chunks_format ls :
  Forall (fun l => Forall (fun b => b < 0x80) (log_message l)) ls ->
  Forall (fun b => b < 0x80) (format_logs ls).
Proof.
  induction ls as [|l ls IH]; intros H; cbn; [constructor|].
  inversion H as [|? ? Hl Hls]; subst. apply Forall_app. split; [|by apply IH].
  unfold log_chunk_text, from_utf8. rewrite (run_utf8_ascii _ 0 Hl).
  by apply strip_go_ascii.
Qed.

(** With ASCII log chunks and a clock reading within the years
    -9999..9999, [embed_container] succeeds (the tail slice does not
    panic, the timestamp is accepted) and stamps the embed with the
    clock reading. *)
Theorem embed_container_ascii_ok (c : Container) (ls : list LogOutput) (now : Z) :
  Forall (fun l => Forall (fun b => b < 0x80) (log_message l)) ls ->
  -377705116800000000 <= now <= 253402300799999999 ->
  exists e, embed_container c ls now = Ok e /\ timestamp e = now.
Proof.
  intros Hl Hn. unfold embed_container.
  destruct (log_tail_ascii _ (ascii_chunks_format _ Hl)) as [t Ht]. rewrite Ht.
  unfold timestamp_from_micros.
  destruct (Z.leb_spec (-377705116800000000) now), (Z.leb_spec now 253402300799999999);
    try lia.
  cbn. by eexists.
Qed.

Lemma embed_container_ascii_ok_witness :
  exists e, embed_container verbose_container (logs verbose_container) clock = Ok e
            /\ timestamp e = clock.
Proof.
  apply embed_container_ascii_ok.
  - constructor; [|constructor]. cbn [logs verbose_container log_message].
    apply List.Forall_forall. intros x Hx. apply repeat_spec in Hx. lia.
  - unfold clock. lia.
Defined.

(** The embed description is the fixed text (27 bytes) around the image,
    the command and the log tail, which is at most 3900 bytes: its
    character count is bounded by 3927 plus those of the image and the
    command. *)
Theorem embed_description_size (c : Container) (ls : list LogOutput) (now : Z) (e : Embed) :
  embed_container c ls now = Ok e ->
  (char_count (description e)
   <= 3927 + char_count (bytes_of_string (image c)) + char_count (bytes_of_string (command c)))%nat.
Proof.
  unfold embed_container.
  destruct (log_tail (format_logs ls)) as [t|] eqn:Ht; [|discriminate].
  destruct (timestamp_from_micros now); [|discriminate]. intros H.
  assert (He : description e
               = bytes_of_string "Image " ++ tick ++ bytes_of_string (image c) ++ tick ++ nl
                 ++ bytes_of_string "Running " ++ tick ++ bytes_of_string (command c) ++ tick
                 ++ bytes_of_string ":" ++ nl ++ tick ++ tick ++ tick ++ t ++ tick ++ tick ++ tick)
    by (injection H as <-; reflexivity).
  rewrite He, !char_count_app.
  destruct (log_tail_ok_spec _ _ Ht) as [_ Hlen]. pose proof (char_count_le t) as Hle.
  change (char_count (bytes_of_string "Image ")) with 6%nat.
  change (char_count (bytes_of_string "Running ")) with 8%nat.
  change (char_count (bytes_of_string ":")) with 1%nat.
  change (char_count tick) with 1%nat. change (char_count nl) with 1%nat.
  lia.
Qed.

Lemma embed_description_size_witness :
  exists e, embed_container (web_container []) [] clock = Ok e
    /\ (char_count (description e)
        <= 3927 + char_count (bytes_of_string "nginx")
           + char_count (bytes_of_string "nginx -g daemon off;"))%nat.
Proof.
  destruct (embed_container (web_container []) [] clock) as [e|err] eqn:E.
  - exists e. split; [reflexivity|]. apply (embed_description_size _ _ _ _ E).
  - vm_compute in E. discriminate.
Defined.

(* ------------------------------------------------------------------ *)
(** ** Properties of [docker::containers] and of the Poller *)

(** [docker::containers] and the Poller agree on the workloads of a
    listing: the ids [docker::containers] returns are exactly the keys of
    the map the Poller builds from the same summaries. *)
Theorem docker_containers_match_poller (entries : list (ContainerSummary * LogStream)) :
  exists ds evs, docker_containers (Ok (map fst entries)) = (Ok ds, evs)
    /\ forall i, In i (map d_id ds) <-> is_Some (snd (build_new_store entries) !! i).
Proof.
  unfold docker_containers.
  destruct (containers_filter_map (map fst entries)) as [out evs] eqn:E.
  exists out, (EvCall ListContainers (Some 0) :: evs). split; [done|].
  intros i. pose proof (containers_filter_map_ids (map fst entries) i) as Hi.
  rewrite E in Hi. cbn in Hi. rewrite Hi. unfold build_new_store. split.
  - intros (c & Hc & Hw & Hid). apply in_map_iff in Hc as (e & <- & He).
    by eapply foldl_poll_adds.
  - intros Hs. destruct (foldl_poll_keys _ _ _ Hs) as [H|(e & He & Hw & Hid)].
    + cbn in H. rewrite lookup_empty in H. by destruct H.
    + exists (fst e). split; [by apply in_map|by split].
Qed.

(** The Poller stops at the first listing error and only then: it ends
    with [Exited] exactly when some [list_containers] answer is an error.
    While it runs, its map is the one built from the last listing (the
    initial store if there was none). *)
Theorem container_thread_exit_and_last
    (rs : list (result (list (ContainerSummary * LogStream)) string)) (st : Store) :
  match container_thread rs st with
  | Exited _ _ => exists x, In (Err x) rs
  | Running st' =>
      (forall x, ~ In (Err x) rs)
      /\ match last rs with
         | None => st' = st
         | Some (Ok entries) => containers st' = snd (build_new_store entries)
         | Some (Err _) => False
         end
  end.
Proof.
  revert st. induction rs as [|r rest IH]; intros st; cbn.
  - split; [by intros x []|done].
  - destruct r as [entries|x]; cbn; [|by exists x; left].
    destruct (build_new_store entries) as [evs ns] eqn:Eb. cbn.
    specialize (IH (install ns st)).
    destruct (container_thread rest (install ns st)) as [st'|e st'].
    + destruct IH as [Hn Hl]. split.
      * intros x [Hx|Hx]; [discriminate|exact (Hn x Hx)].
      * destruct rest as [|r' rest']; cbn in Hl |- *.
        -- subst st'. by rewrite Eb.
        -- destruct (last (r' :: rest')) as [o|] eqn:El; [exact Hl|].
           apply last_None in El. discriminate.
    + destruct IH as [x Hx]. exists x. by right.
Qed.

(* ------------------------------------------------------------------ *)
(** ** Properties of the Reconciler *)

(** A Reconciler cycle never changes the workload map of the shared
    store, and leaves [to_remove] empty, whether it succeeds or fails. *)
Theorem reconcile_cycle_store_effect (now : Z) (s : RState) :
  rs_store (snd (reconcile_cycle now s)) = mkStore (containers (rs_store s)) [].
Proof.
  unfold reconcile_cycle, bind. pose proof (remove_phase_store s) as H.
  destruct (remove_phase s) as [[u|e] s1]; cbn in *; [|exact H].
  by rewrite keeps_store_update_phase.
Qed.

(** After a successful cycle every workload of the store has a channel
    and a message on record. *)
Theorem reconcile_cycle_ok_all_have_messages (now : Z) (s s' : RState) (u : unit) :
  reconcile_cycle now s = (Ok u, s') ->
  forall k c, containers (rs_store s) !! k = Some c -> has_message (id c) s'.
Proof.
  intros H k c Hk. unfold reconcile_cycle in H.
  apply bind_ok_inv in H as (u1 & s1 & H1 & H).
  pose proof (remove_phase_store s) as Hst. rewrite H1 in Hst. cbn in Hst.
  unfold update_phase, with_lock in H.
  destruct (bind snapshot_values (fun cs => for_each cs (update_one now)) (push EvLock s1))
    as [r s2] eqn:E.
  injection H as -> <-. apply has_message_push.
  apply bind_ok_inv in E as (cs & s3 & E1 & E2). unfold snapshot_values in E1.
  injection E1 as <- <-.
  destruct (for_each_update_ok _ _ _ _ _ E2) as [_ Hin]. apply Hin.
  eapply in_snapshot. cbn. rewrite Hst. exact Hk.
Qed.

Lemma reconcile_cycle_ok_all_have_messages_witness :
  reconcile_cycle clock locked_state = (Ok tt, snd (reconcile_cycle clock locked_state))
  /\ has_message "4f2a" (snd (reconcile_cycle clock locked_state)).
Proof.
  assert (H : reconcile_cycle clock locked_state
              = (Ok tt, snd (reconcile_cycle clock locked_state))) by (vm_compute; reflexivity).
  split; [exact H|].
  apply (reconcile_cycle_ok_all_have_messages clock locked_state _ tt H "4f2a" (web_container [])).
  reflexivity.
Defined.

(** In the steady state, when every workload already has a message, the
    update phase creates nothing: between its lock and unlock it makes
    only [update_message] calls. *)
Theorem update_phase_steady_state (now : Z) (s : RState) :
  (forall k c, containers (rs_store s) !! k = Some c -> has_message (id c) s) ->
  exists t, rs_trace (snd (update_phase now s)) = rs_trace s ++ [EvLock] ++ t ++ [EvUnlock]
    /\ Forall update_call_event t.
Proof.
  intros H. unfold update_phase, with_lock.
  rewrite (bind_ok snapshot_values _ (push EvLock s) _ _ eq_refl). cbv beta.
  destruct (for_each_steady now (map snd (map_to_list (containers (rs_store (push EvLock s)))))
              (push EvLock s)) as (t & Ht & Hf).
  { intros c Hc. apply has_message_push.
    apply in_map_iff in Hc as ([k c'] & <- & Hc).
    apply list_elem_of_In, elem_of_map_to_list in Hc. exact (H k c' Hc). }
  destruct (for_each _ (update_one now) (push EvLock s)) as [r s1]. cbn in Ht |- *.
  exists t. split; [|exact Hf]. rewrite Ht. by rewrite <- !app_assoc.
Qed.

Lemma update_phase_steady_state_witness :
  exists t, rs_trace (snd (update_phase clock (posted_state (web_container []))))
            = rs_trace (posted_state (web_container [])) ++ [EvLock] ++ t ++ [EvUnlock]
    /\ Forall update_call_event t.
Proof.
  apply update_phase_steady_state. intros k c Hk.
  cbn in Hk. apply lookup_singleton_Some in Hk as [<- <-]. exists 100, 101. reflexivity.
Defined.

(** A workload without a channel whose name is empty or longer than 100
    characters stops the Reconciler before any call: [update_one] fails
    with "Failed to set channel name" and leaves the state as it was. *)
Theorem update_one_bad_channel_name (now : Z) (c : Container) (s : RState) :
  rs_channels s !! id c = None ->
  (char_count (bytes_of_string (name c)) = 0 \/ 100 < char_count (bytes_of_string (name c)))%nat ->
  update_one now c s = (Err (Anyhow "Failed to set channel name"), s).
Proof.
  intros Hk Hn. unfold update_one.
  rewrite (bind_ok get_channels _ s (rs_channels s) s eq_refl). cbv beta. rewrite Hk.
  unfold bind at 1. rewrite (bind_err (create_guild_channel (name c)) _ s
                              (Anyhow "Failed to set channel name") s); [reflexivity|].
  unfold create_guild_channel. cbv zeta.
  destruct (Nat.leb_spec 1 (char_count (bytes_of_string (name c)))),
    (Nat.leb_spec (char_count (bytes_of_string (name c))) 100); try lia; reflexivity.
Qed.

Lemma update_one_bad_channel_name_witness :
  update_one clock (mkContainer "4f2a" long_name "nginx" "nginx" "Up 2 hours" []) unnamed_state
  = (Err (Anyhow "Failed to set channel name"), unnamed_state).
Proof.
  apply update_one_bad_channel_name; [reflexivity|]. right. vm_compute. lia.
Defined.

(** A workload whose embed breaks the embed limits stops the Reconciler
    before any call: [update_one] fails with "Failed to set message
    embeds" and leaves the state as it was, whether it already has a
    message or not. *)
Theorem update_one_embed_too_large (now : Z) (c : Container) (s : RState) (p : Z * option Z)
    (e : Embed) :
  rs_channels s !! id c = Some p ->
  embed_container c (logs c) now = Ok e ->
  embed_valid e = false ->
  update_one now c s = (Err (Anyhow "Failed to set message embeds"), s).
Proof.
  intros Hk He Hv. unfold update_one.
  rewrite (bind_ok get_channels _ s (rs_channels s) s eq_refl). cbv beta. rewrite Hk.
  rewrite (bind_ok (ret p) _ s p s eq_refl). cbv beta.
  rewrite (bind_ok (lift (embed_container c (logs c) now)) _ s e s); [|by unfold lift; rewrite He].
  unfold bind, check_embed. rewrite Hv. by destruct (snd p).
Qed.

Lemma update_one_embed_too_large_witness :
  exists e, embed_container verbose_container (logs verbose_container) clock = Ok e
    /\ embed_valid e = false
    /\ update_one clock verbose_container (posted_state verbose_container)
       = (Err (Anyhow "Failed to set message embeds"), posted_state verbose_container).
Proof.
  destruct (embed_container verbose_container (logs verbose_container) clock) as [e|err] eqn:E.
  - assert (Hv : embed_valid e = false).
    { revert E. vm_compute. intros [= <-]. reflexivity. }
    exists e. split; [reflexivity|]. split; [exact Hv|].
    exact (update_one_embed_too_large clock verbose_container (posted_state verbose_container)
             (100, Some 101) e eq_refl E Hv).
  - vm_compute in E. discriminate.
Defined.
